(** * The intelligence-graph engine of the exposure dashboard

    A shallow embedding of [components/intelligence-graph.tsx]: the model
    builder [generateGraphData], the position store, the viewport
    transform, the canvas renderer [draw], the hit test
    [getNodeAtPosition] and the pointer / wheel handlers of the
    [IntelligenceGraph] component.

    JavaScript numbers are modelled as real numbers ([R]): arithmetic is
    exact, there is no rounding and no infinity.  [Math.cos], [Math.sin] and
    [Math.sqrt] are the functions of the same name of the Standard Library's
    reals.  The one place where the component computes with a value that is
    no number, a style lookup that meets a member inherited from
    [Object.prototype], is modelled as such.  Every handler is modelled as a function from
    the state of the last render to the state of the next one, that is, one
    render takes place between two events. *)

From stdpp Require Import base list strings gmap.
From Stdlib Require Import Reals Lra.

Local Open Scope R_scope.

(** ** Data model *)

(** [{ x: number; y: number }], the values of the position map and of the
    [pan] and [dragStart] states. *)
Record Point := mkPoint { x : R; y : R }.

(** [Record<string, any>]: opaque pass-through data. *)
Definition Attributes := list (string * string).

(** One element of [ScanResult.graph_data.nodes].  The fields [color] and
    [size] of the payload are never read by the component and are left out.
    [raw_attributes] is [None] when the payload carries no attribute object
    ([null] or [undefined]). *)
Record RawNode := mkRawNode {
  raw_id : string;
  raw_label : string;
  raw_type : string;
  raw_attributes : option Attributes
}.

(** One element of [ScanResult.graph_data.edges]; [width], [color] and
    [attributes] are never read. *)
Record RawEdge := mkRawEdge {
  raw_from : string;
  raw_to : string;
  raw_title : string
}.

Record RawGraph := mkRawGraph {
  raw_nodes : list RawNode;
  raw_edges : list RawEdge
}.

(** The part of [ScanResult] the component reads.  [graph_data] is [None]
    when the field is missing from the payload. *)
Record ScanResult := mkScanResult { graph_data : option RawGraph }.

(** [interface GraphNode]. *)
Record GraphNode := mkGraphNode {
  node_id : string;
  node_label : string;
  node_type : string;
  node_x : R;
  node_y : R;
  node_details : Attributes
}.

(** [interface GraphEdge]. *)
Record GraphEdge := mkGraphEdge {
  source : string;
  target : string;
  relationship : string
}.

Record GraphData := mkGraphData {
  nodes : list GraphNode;
  edges : list GraphEdge
}.

(** ** JavaScript truthiness on the values the component tests *)

(** [s || d] on strings: the empty string is falsy. *)
Definition str_or (s d : string) : string :=
  if decide (s = EmptyString) then d else s.

(** Truthiness of a [string | null]: [null] and the empty string are falsy. *)
Definition truthy (s : option string) : bool :=
  match s with
  | Some v => if decide (v = EmptyString) then false else true
  | None => false
  end.

(** [s || null] on a [string | null | undefined]. *)
Definition or_null (s : option string) : option string :=
  if truthy s then s else None.

(** ** Graph model builder *)

(** The node pushed for the record [nodeData] at index [i]. *)
Definition buildNode (i : nat) (nodeData : RawNode) : GraphNode :=
  {| node_id := raw_id nodeData;
     node_label := raw_label nodeData;
     node_type := raw_type nodeData;
     node_x := 400 + cos (INR i * 0.5) * 150;
     node_y := 300 + sin (INR i * 0.5) * 150;
     node_details := default [] (raw_attributes nodeData) |}.

(** The edge pushed for the record [edgeData]. *)
Definition buildEdge (edgeData : RawEdge) : GraphEdge :=
  {| source := raw_from edgeData;
     target := raw_to edgeData;
     relationship := str_or (raw_title edgeData) "connected" |}.

(** [generateGraphData]: two [forEach] loops pushing onto two arrays that
    start empty; nothing is pushed when [data.graph_data] is missing. *)
Definition generateGraphData (data : ScanResult) : GraphData :=
  match graph_data data with
  | Some gd =>
      {| nodes := imap buildNode (raw_nodes gd);
         edges := buildEdge <$> raw_edges gd |}
  | None => {| nodes := []; edges := [] |}
  end.

(** ** Position store *)

(** [new Map(graphData.nodes.map((n) => [n.id, { x: n.x, y: n.y }]))]: the
    [Map] constructor inserts the pairs from left to right, so a later pair
    overwrites an earlier one with the same key. *)
Definition initNodePositions (g : GraphData) : gmap string Point :=
  foldl (λ m n, <[node_id n := mkPoint (node_x n) (node_y n)]> m) ∅ (nodes g).

(** ** Host environment *)

(** The result of [canvas.getBoundingClientRect()], in CSS pixels. *)
Record DOMRect := mkDOMRect {
  rect_left : R;
  rect_top : R;
  rect_width : R;
  rect_height : R
}.

(** The canvas element behind [canvasRef.current]; [has_context] tells
    whether [getContext("2d")] returns a context. *)
Record Canvas := mkCanvas {
  rect : DOMRect;
  has_context : bool
}.

(** What a handler or [draw] reads from the page when it runs:
    [canvasRef.current] ([None] for [null]), [window.devicePixelRatio], and
    the width [ctx.measureText(label).width] of a label in the edge font. *)
Record Env := mkEnv {
  canvasRef : option Canvas;
  devicePixelRatio : R;
  measureText : string → R
}.

#[local] Instance R_eq_dec : EqDecision R := Req_EM_T.

(** [a <= b] and [a > b] on numbers, as tests. *)
Definition Rleb (a b : R) : bool := if Rle_dec a b then true else false.
Definition Rgtb (a b : R) : bool := if Rgt_dec a b then true else false.

(** ** Style tables *)

Definition nodeColors : gmap string string :=
  list_to_map
    [ ("person", "#ff6b35"); ("email", "#4ecdc4"); ("repository", "#ffd166");
      ("sensitive_data", "#ff0054"); ("organization", "#06ffa5");
      ("platform", "#9d4edd"); ("account", "#a0c4ff"); ("identity", "#186ba0");
      ("location", "#ffb6c1"); ("website", "#8a2be2"); ("domain", "#daa520");
      ("user", "#ff6b35"); ("default", "#6b7280") ]%string.

Definition nodeSizes : gmap string R :=
  list_to_map
    [ ("person", 60); ("sensitive_data", 40); ("repository", 28);
      ("organization", 28); ("email", 25); ("platform", 24); ("account", 22);
      ("identity", 20); ("location", 18); ("website", 18); ("domain", 16);
      ("user", 30); ("sensitive", 22); ("default", 20) ]%string.

(** The two tables are object literals, so that [table[key]] also finds the
    members every object inherits from [Object.prototype]: ten functions,
    the constructor [Object] and, under [__proto__], the prototype itself. *)
Definition objectPrototypeMembers : list string :=
  [ "constructor"; "hasOwnProperty"; "isPrototypeOf"; "propertyIsEnumerable";
    "toLocaleString"; "toString"; "valueOf"; "__proto__";
    "__defineGetter__"; "__defineSetter__"; "__lookupGetter__";
    "__lookupSetter__" ]%string.

(** What a style lookup returns: an entry of the table, or the member of
    [Object.prototype] of that name, a function or an object. *)
Inductive TableValue (A : Type) :=
| Entry (v : A)
| InheritedMember (key : string).
Arguments Entry {A} v.
Arguments InheritedMember {A} key.

(** [table[key]]: [None] stands for [undefined]. *)
Definition objectGet {A : Type} (table : gmap string A) (key : string)
    : option (TableValue A) :=
  match table !! key with
  | Some v => Some (Entry v)
  | None =>
      if decide (key ∈ objectPrototypeMembers) then Some (InheritedMember key)
      else None
  end.

(** [nodeColors[type] || nodeColors['default']]: an empty entry would be
    falsy, an inherited member is truthy. *)
Definition getNodeColor (type : string) : TableValue string :=
  match objectGet nodeColors type with
  | Some (Entry color) => Entry (str_or color "#6b7280")
  | Some (InheritedMember key) => InheritedMember key
  | None => Entry "#6b7280"%string
  end.

(** [nodeSizes[type] || nodeSizes['default']]: a zero entry would be falsy,
    an inherited member is truthy. *)
Definition getNodeSize (type : string) : TableValue R :=
  match objectGet nodeSizes type with
  | Some (Entry size) => if decide (size = 0) then Entry 20 else Entry size
  | Some (InheritedMember key) => InheritedMember key
  | None => Entry 20
  end.

(** ** Component state *)

(** The [useState] cells of [IntelligenceGraph] that change over time,
    together with [selectedNode], the cell of the page that the component
    receives as a prop and sets through [onNodeSelect]. *)
Record State := mkState {
  zoom : R;
  pan : Point;
  isDragging : bool;
  dragStart : Point;
  hoveredNode : option GraphNode;
  nodePositions : gmap string Point;
  draggingNode : option string;
  selectedNode : option string
}.

(** The state of the first render for the graph [g]. *)
Definition initialState (g : GraphData) : State :=
  {| zoom := 1;
     pan := mkPoint 0 0;
     isDragging := false;
     dragStart := mkPoint 0 0;
     hoveredNode := None;
     nodePositions := initNodePositions g;
     draggingNode := None;
     selectedNode := None |}.

(** ** Renderer *)

(** A numeric argument as a canvas method receives it: a number, or NaN
    when the value passed converts to no number.  [arc] and [fillText]
    return at once when an argument is NaN. *)
Inductive Arg :=
| Num (r : R)
| NaN.

(** An expression [f size] over a size read from the table: arithmetic on
    a number, and for an inherited member, where [+] concatenates strings,
    a text that converts to NaN. *)
Definition argOf (f : R → R) (size : TableValue R) : Arg :=
  match size with
  | Entry v => Num (f v)
  | InheritedMember _ => NaN
  end.

(** The calls [draw] makes on the canvas and on its 2D context, in order.
    [FillStyleMember key suffix] is the assignment to [fillStyle] of the
    text of the inherited member [key] followed by [suffix], which is no
    colour and leaves the fill style as it was. *)
Inductive CanvasOp :=
| SetWidth (w : R)
| SetHeight (h : R)
| CtxScale (sx sy : R)
| CtxTranslate (tx ty : R)
| ClearRect (cx cy w h : R)
| Save
| Restore
| BeginPath
| MoveTo (cx cy : R)
| LineTo (cx cy : R)
| Arc (cx cy : R) (radius : Arg) (startAngle endAngle : R)
| Stroke
| Fill
| FillRect (cx cy w h : R)
| FillText (text : string) (cx : R) (cy : Arg)
| StrokeStyle (style : string)
| FillStyle (style : string)
| FillStyleMember (key suffix : string)
| FillRadialGradient (x0 y0 : R) (r0 : Arg) (x1 y1 : R) (r1 : Arg)
    (stops : list (R * string))
| LineWidth (w : R)
| Font (font : string)
| TextAlign (align : string)
| TextBaseline (baseline : string).

(** The body of [graphData.edges.forEach] in [draw]: nothing is drawn for an
    edge one of whose endpoints has no stored position. *)
Definition drawEdge (env : Env) (s : State) (edge : GraphEdge) : list CanvasOp :=
  match nodePositions s !! source edge, nodePositions s !! target edge with
  | Some sourcePos, Some targetPos =>
      let midX := (x sourcePos + x targetPos) / 2 in
      let midY := (y sourcePos + y targetPos) / 2 in
      let label := str_or (relationship edge) "connected" in
      let textWidth := measureText env label in
      [ BeginPath;
        MoveTo (x sourcePos) (y sourcePos);
        LineTo (x targetPos) (y targetPos);
        StrokeStyle "rgba(74, 144, 226, 0.6)";
        LineWidth 2;
        Stroke;
        Font "10px Geist, sans-serif";
        FillStyle "rgba(255, 255, 255, 0.9)";
        TextAlign "center";
        TextBaseline "middle";
        FillStyle "rgba(0, 0, 0, 0.7)";
        FillRect (midX - textWidth / 2 - 4) (midY - 7) (textWidth + 8) 14;
        FillStyle "#ffffff";
        FillText label midX (Num midY) ]
  | _, _ => []
  end.

Definition isSensitive (type : string) : bool :=
  bool_decide (type = "sensitive_data") || bool_decide (type = "sensitive").

(** The label under a node: [node.label || node.id], cut to 15 characters
    and an ellipsis when longer than 18.  Lengths count the characters of
    the Rocq string, which agree with JavaScript's on ASCII labels. *)
Definition nodeLabel (node : GraphNode) : string :=
  let label := str_or (node_label node) (node_id node) in
  if (18 <? String.length label)%nat
  then (String.substring 0 15 label ++ "...")%string
  else label.

(** The body of [graphData.nodes.forEach] in [draw].  The glow is drawn for
    the two sensitive types only, which are entries of the size table, so
    that [createRadialGradient] never meets a radius that is no number. *)
Definition drawNode (s : State) (node : GraphNode) : list CanvasOp :=
  match nodePositions s !! node_id node with
  | None => []
  | Some pos =>
      let size := getNodeSize (node_type node) in
      let color := getNodeColor (node_type node) in
      let isHovered :=
        match hoveredNode s with
        | Some h => bool_decide (node_id h = node_id node)
        | None => false
        end in
      let isSelected := bool_decide (selectedNode s = Some (node_id node)) in
      let lit := isHovered || isSelected in
      (if isSensitive (node_type node)
       then [ BeginPath;
              Arc (x pos) (y pos) (argOf (λ v, v + 8) size) 0 (PI * 2);
              FillRadialGradient (x pos) (y pos) (argOf (λ v, v) size)
                (x pos) (y pos) (argOf (λ v, v + 8) size)
                [ (0, "rgba(255, 0, 84, 0.4)"); (1, "rgba(255, 0, 84, 0)") ];
              Fill ]
       else [])
      ++ [ BeginPath;
           Arc (x pos) (y pos) (argOf (λ v, v) size) 0 (PI * 2);
           match color with
           | Entry c => FillStyle (if lit then c else (c ++ "cc")%string)
           | InheritedMember key =>
               FillStyleMember key (if lit then EmptyString else "cc"%string)
           end;
           Fill;
           StrokeStyle (if lit then "#ffffff" else "rgba(0, 0, 0, 0.3)");
           LineWidth (if lit then 3 else 1);
           Stroke;
           Font "11px Geist, sans-serif";
           FillStyle "#ffffff";
           TextAlign "center";
           TextBaseline "top";
           FillText (nodeLabel node) (x pos) (argOf (λ v, y pos + v + 5) size) ]
      ++ (if isSensitive (node_type node)
          then [ FillStyle "#ffffff";
                 Font "bold 14px Geist, sans-serif";
                 TextAlign "center";
                 TextBaseline "middle";
                 FillText "⚠" (x pos) (Num (y pos)) ]
          else [])
  end.

(** The edge pass and the node pass of [draw]. *)
Definition drawEdges (env : Env) (g : GraphData) (s : State) : list CanvasOp :=
  concat (drawEdge env s <$> edges g).

Definition drawNodes (g : GraphData) (s : State) : list CanvasOp :=
  concat (drawNode s <$> nodes g).

(** [window.devicePixelRatio || 1]. *)
Definition pixelRatio (env : Env) : R :=
  if decide (devicePixelRatio env = 0) then 1 else devicePixelRatio env.

(** The calls of [draw] that come before the first stroke. *)
Definition drawPrelude (env : Env) (r : DOMRect) (s : State) : list CanvasOp :=
  let dpr := pixelRatio env in
  [ SetWidth (rect_width r * dpr);
    SetHeight (rect_height r * dpr);
    CtxScale dpr dpr;
    ClearRect 0 0 (rect_width r) (rect_height r);
    Save;
    CtxTranslate (x (pan s)) (y (pan s));
    CtxScale (zoom s) (zoom s) ].

(** [draw]: no call is made when the canvas or its context is missing. *)
Definition draw (env : Env) (g : GraphData) (s : State) : list CanvasOp :=
  match canvasRef env with
  | None => []
  | Some canvas =>
      if has_context canvas then
        drawPrelude env (rect canvas) s
        ++ drawEdges env g s
        ++ drawNodes g s
        ++ [ Restore ]
      else []
  end.

(** ** Viewport transform *)

(** The two lines [(clientX - rect.left - pan.x) / zoom] and
    [(clientY - rect.top - pan.y) / zoom] shared by [getNodeAtPosition] and
    [handleMouseMove]: the world point under a pointer position. *)
Definition toWorld (r : DOMRect) (s : State) (clientX clientY : R) : Point :=
  {| x := (clientX - rect_left r - x (pan s)) / zoom s;
     y := (clientY - rect_top r - y (pan s)) / zoom s |}.

(** The transformation matrix of a 2D context, restricted to the
    axis-parallel maps the component builds: the user-space point [(u, v)]
    is painted at the bitmap pixel [(m_sx * u + m_tx, m_sy * v + m_ty)]. *)
Record Matrix := mkMatrix { m_sx : R; m_sy : R; m_tx : R; m_ty : R }.

Definition identityMatrix : Matrix := mkMatrix 1 1 0 0.

(** The effect of one call on the matrix: [scale] and [translate] multiply
    it on the right, and assigning the width or height of the canvas resets
    the context. *)
Definition applyOp (m : Matrix) (op : CanvasOp) : Matrix :=
  match op with
  | CtxScale sx sy => mkMatrix (m_sx m * sx) (m_sy m * sy) (m_tx m) (m_ty m)
  | CtxTranslate tx ty =>
      mkMatrix (m_sx m) (m_sy m) (m_tx m + m_sx m * tx) (m_ty m + m_sy m * ty)
  | SetWidth _ | SetHeight _ => identityMatrix
  | _ => m
  end.

(** Where [draw] paints the world point [p], in CSS pixels from the corner
    of the canvas: the bitmap has [dpr] pixels per CSS pixel. *)
Definition worldToScreen (env : Env) (r : DOMRect) (s : State) (p : Point) : Point :=
  let m := foldl applyOp identityMatrix (drawPrelude env r s) in
  {| x := (m_sx m * x p + m_tx m) / pixelRatio env;
     y := (m_sy m * y p + m_ty m) / pixelRatio env |}.

(** ** Hit test *)

(** [dist <= size] for the world point [w] and the [node] centred at [pos].
    Compared with a size that is an inherited member, which converts to
    NaN, no distance is smaller. *)
Definition hits (w pos : Point) (node : GraphNode) : bool :=
  let size := getNodeSize (node_type node) in
  let dist := sqrt ((x w - x pos) ^ 2 + (y w - y pos) ^ 2) in
  match size with
  | Entry radius => Rleb dist radius
  | InheritedMember _ => false
  end.

(** The [for ... of graphData.nodes] loop of [getNodeAtPosition]. *)
Fixpoint firstHit (positions : gmap string Point) (w : Point)
    (l : list GraphNode) : option GraphNode :=
  match l with
  | [] => None
  | node :: rest =>
      match positions !! node_id node with
      | None => firstHit positions w rest
      | Some pos => if hits w pos node then Some node else firstHit positions w rest
      end
  end.

Definition getNodeAtPosition (env : Env) (g : GraphData) (s : State)
    (clientX clientY : R) : option GraphNode :=
  match canvasRef env with
  | None => None
  | Some canvas =>
      firstHit (nodePositions s) (toWorld (rect canvas) s clientX clientY) (nodes g)
  end.

(** ** Interaction controller *)

Definition setZoom (z : R) (s : State) : State :=
  mkState z (pan s) (isDragging s) (dragStart s) (hoveredNode s)
    (nodePositions s) (draggingNode s) (selectedNode s).
Definition setPan (p : Point) (s : State) : State :=
  mkState (zoom s) p (isDragging s) (dragStart s) (hoveredNode s)
    (nodePositions s) (draggingNode s) (selectedNode s).
Definition setIsDragging (b : bool) (s : State) : State :=
  mkState (zoom s) (pan s) b (dragStart s) (hoveredNode s)
    (nodePositions s) (draggingNode s) (selectedNode s).
Definition setDragStart (p : Point) (s : State) : State :=
  mkState (zoom s) (pan s) (isDragging s) p (hoveredNode s)
    (nodePositions s) (draggingNode s) (selectedNode s).
Definition setHoveredNode (h : option GraphNode) (s : State) : State :=
  mkState (zoom s) (pan s) (isDragging s) (dragStart s) h
    (nodePositions s) (draggingNode s) (selectedNode s).
Definition setNodePositions (m : gmap string Point) (s : State) : State :=
  mkState (zoom s) (pan s) (isDragging s) (dragStart s) (hoveredNode s)
    m (draggingNode s) (selectedNode s).
Definition setDraggingNode (d : option string) (s : State) : State :=
  mkState (zoom s) (pan s) (isDragging s) (dragStart s) (hoveredNode s)
    (nodePositions s) d (selectedNode s).
(** [onNodeSelect], which the page binds to the setter of [selectedNode]. *)
Definition onNodeSelect (sel : option string) (s : State) : State :=
  mkState (zoom s) (pan s) (isDragging s) (dragStart s) (hoveredNode s)
    (nodePositions s) (draggingNode s) sel.

(** [handleMouseMove].  The branch [if (draggingNode)] is taken when the
    cell holds a non-empty string.  The assignment to [canvas.style.cursor]
    is not part of the state. *)
Definition handleMouseMove (env : Env) (g : GraphData) (s : State)
    (clientX clientY : R) : State :=
  match canvasRef env with
  | None => s
  | Some canvas =>
      match or_null (draggingNode s) with
      | Some id =>
          setNodePositions
            (<[id := toWorld (rect canvas) s clientX clientY]> (nodePositions s)) s
      | None =>
          if isDragging s then
            setDragStart (mkPoint clientX clientY)
              (setPan (mkPoint (x (pan s) + (clientX - x (dragStart s)))
                               (y (pan s) + (clientY - y (dragStart s)))) s)
          else
            setHoveredNode (getNodeAtPosition env g s clientX clientY) s
      end
  end.

Definition handleMouseDown (env : Env) (g : GraphData) (s : State)
    (clientX clientY : R) : State :=
  match getNodeAtPosition env g s clientX clientY with
  | Some node => setDraggingNode (Some (node_id node)) s
  | None => setDragStart (mkPoint clientX clientY) (setIsDragging true s)
  end.

(** [handleMouseUp], bound to both [onMouseUp] and [onMouseLeave]. *)
Definition handleMouseUp (s : State) : State :=
  setDraggingNode None (setIsDragging false s).

(** The argument [node?.id || null] that [handleClick] passes to
    [onNodeSelect]. *)
Definition clickedId (env : Env) (g : GraphData) (s : State)
    (clientX clientY : R) : option string :=
  or_null (node_id <$> getNodeAtPosition env g s clientX clientY).

Definition handleClick (env : Env) (g : GraphData) (s : State)
    (clientX clientY : R) : State :=
  onNodeSelect (clickedId env g s clientX clientY) s.

(** [e.deltaY > 0 ? 0.9 : 1.1]. *)
Definition wheelDelta (deltaY : R) : R :=
  if Rgtb deltaY 0 then 0.9 else 1.1.

(** [handleWheel]; [e.preventDefault()] does not touch the state. *)
Definition handleWheel (s : State) (deltaY : R) : State :=
  setZoom (Rmin (Rmax (zoom s * wheelDelta deltaY) 0.5) 2) s.

(** The three buttons of the header and the close button of the drawer. *)
Definition zoomInButton (s : State) : State :=
  setZoom (Rmin (zoom s * 1.2) 2) s.
Definition zoomOutButton (s : State) : State :=
  setZoom (Rmax (zoom s * 0.8) 0.5) s.
Definition resetButton (s : State) : State :=
  setPan (mkPoint 0 0) (setZoom 1 s).
Definition closeButton (s : State) : State :=
  onNodeSelect None s.

(** The events the component listens to. *)
Inductive Event :=
| MouseMove (clientX clientY : R)
| MouseDown (clientX clientY : R)
| MouseUp
| MouseLeave
| Click (clientX clientY : R)
| Wheel (deltaY : R)
| ZoomIn
| ZoomOut
| ResetView
| CloseDrawer.

Definition step (g : GraphData) (s : State) (input : Env * Event) : State :=
  let (env, event) := input in
  match event with
  | MouseMove cx cy => handleMouseMove env g s cx cy
  | MouseDown cx cy => handleMouseDown env g s cx cy
  | MouseUp => handleMouseUp s
  | MouseLeave => handleMouseUp s
  | Click cx cy => handleClick env g s cx cy
  | Wheel deltaY => handleWheel s deltaY
  | ZoomIn => zoomInButton s
  | ZoomOut => zoomOutButton s
  | ResetView => resetButton s
  | CloseDrawer => closeButton s
  end.

(** The state after a sequence of events, each with the page environment
    it meets. *)
Definition run (g : GraphData) (s : State) (trace : list (Env * Event)) : State :=
  foldl (step g) s trace.

(** The states the component can be in for the payload [data]. *)
Definition reachable (data : ScanResult) (s : State) : Prop :=
  ∃ trace, s = run (generateGraphData data) (initialState (generateGraphData data)) trace.

(** ** Detail drawer and hover tooltip *)

(** [selectedNode ? graphData.nodes.find((n) => n.id === selectedNode) : null]:
    the first node bearing the selected id; an empty selected id is falsy. *)
Definition selectedNodeData (g : GraphData) (s : State) : option GraphNode :=
  match or_null (selectedNode s) with
  | Some sel => List.find (λ n, bool_decide (node_id n = sel)) (nodes g)
  | None => None
  end.

(** The node the hover tooltip describes: the tooltip is rendered under
    [hoveredNode && !selectedNodeData]. *)
Definition tooltipNode (g : GraphData) (s : State) : option GraphNode :=
  match hoveredNode s, selectedNodeData g s with
  | Some hovered, None => Some hovered
  | _, _ => None
  end.

(** ** Notions used to state the properties *)

(** The position [generateGraphData] gives to the record at index [i]. *)
Definition seedPoint (i : nat) : Point :=
  mkPoint (400 + cos (INR i * 0.5) * 150) (300 + sin (INR i * 0.5) * 150).

(** One step of the [Map] constructor. *)
Definition storeNode (m : gmap string Point) (n : GraphNode) : gmap string Point :=
  <[node_id n := mkPoint (node_x n) (node_y n)]> m.

(** Five records, seeded twice under different labels. *)
Definition fiveRecords (label : string) : RawGraph :=
  mkRawGraph
    ((λ id, mkRawNode id label "account" None) <$> ["a"; "b"; "c"; "d"; "e"]%string)
    [].

Definition fiveNodes (label : string) : ScanResult :=
  mkScanResult (Some (fiveRecords label)).

(** A payload with two records that share the id ["a"]. *)
Definition twoRecordsOneId : RawGraph :=
  mkRawGraph
    [ mkRawNode "a" "old" "email" None; mkRawNode "a" "new" "person" None ]
    [].

Definition zoomedView : State :=
  mkState 2 (mkPoint 30 (-40)) false (mkPoint 0 0) None ∅ None None.

(** The type of [node] has a number as its size and the world point [w] is
    within that radius of [pos]. *)
Definition within (w pos : Point) (node : GraphNode) : Prop :=
  ∃ radius, getNodeSize (node_type node) = Entry radius
            ∧ sqrt ((x w - x pos) ^ 2 + (y w - y pos) ^ 2) <= radius.

(** The synthetic scene of the hit-test example: one node of radius 20 at
    the world point [(100, 100)], unit zoom, no pan, and a canvas whose
    corner is the corner of the page. *)
Definition syntheticNode : GraphNode :=
  mkGraphNode "n" "synthetic" "identity" 100 100 [].
Definition syntheticGraph : GraphData := mkGraphData [syntheticNode] [].
Definition cornerEnv : Env :=
  mkEnv (Some (mkCanvas (mkDOMRect 0 0 800 400) true)) 1 (λ _, 0).

(** The synthetic scene seen at zoom 2 with a pan of [(30, -40)], on a
    canvas whose corner is at [(8, 16)] of the page. *)
Definition offsetEnv : Env :=
  mkEnv (Some (mkCanvas (mkDOMRect 8 16 800 400) true)) 2 (λ _, 0).
Definition zoomedScene : State :=
  setPan (mkPoint 30 (-40)) (setZoom 2 (initialState syntheticGraph)).

(** The keys of the position store and the dragged id are ids of nodes. *)
Definition storeOfNodes (g : GraphData) (s : State) : Prop :=
  (∀ k, is_Some (nodePositions s !! k) → k ∈ node_id <$> nodes g)
  ∧ (∀ a, draggingNode s = Some a → a ∈ node_id <$> nodes g).

(** Both endpoints of the edge are ids of nodes of the model. *)
Definition anchored (g : GraphData) (e : GraphEdge) : Prop :=
  source e ∈ node_id <$> nodes g ∧ target e ∈ node_id <$> nodes g.

#[local] Instance anchored_dec g e : Decision (anchored g e) :=
  and_dec _ _.

(** The model without the edges that have a dangling endpoint. *)
Definition sanitized (g : GraphData) : GraphData :=
  mkGraphData (nodes g) (filter (anchored g) (edges g)).

(** The model of a payload of one record. *)
Definition oneRecord (id type : string) : RawNode := mkRawNode id "node" type None.
Definition oneNode (id type : string) : GraphData :=
  generateGraphData (mkScanResult (Some (mkRawGraph [ oneRecord id type ] []))).

(** No pointer-down arrives while the button of an earlier pointer-down is
    still held: [pressed] tells whether a gesture is open. *)
Fixpoint oneGestureAtATime (pressed : bool) (trace : list (Env * Event)) : bool :=
  match trace with
  | [] => true
  | (_, MouseDown _ _) :: rest => negb pressed && oneGestureAtATime true rest
  | (_, MouseUp) :: rest | (_, MouseLeave) :: rest => oneGestureAtATime false rest
  | _ :: rest => oneGestureAtATime pressed rest
  end.

Definition idle (s : State) : Prop :=
  isDragging s = false ∧ draggingNode s = None.

Definition panningAndDragging (s : State) : Prop :=
  isDragging s = true ∧ is_Some (draggingNode s).

(** A run of pointer-moves, each with the page it meets. *)
Definition moves (ps : list (Env * Point)) : list (Env * Event) :=
  (λ ep, (ep.1, MouseMove (x ep.2) (y ep.2))) <$> ps.

(** The point of the last move of the run, [d] when the run is empty. *)
Definition lastPoint (d : Point) (ps : list (Env * Point)) : Point :=
  foldl (λ _ ep, ep.2) d ps.

Definition isMouseMove (input : Env * Event) : Prop :=
  ∃ clientX clientY, input.2 = MouseMove clientX clientY.

(** The canvas is mounted in every page of the run. *)
Definition mounted (ps : list (Env * Point)) : Prop :=
  Forall (λ ep, is_Some (canvasRef ep.1)) ps.

(** The selected id is a non-empty id of a node and the hovered node is a
    node of the model. *)
Definition tracked (g : GraphData) (s : State) : Prop :=
  (∀ a, selectedNode s = Some a → a ≠ EmptyString ∧ a ∈ node_id <$> nodes g)
  ∧ (∀ n, hoveredNode s = Some n → n ∈ nodes g).

(** The node is the hovered one or bears the selected id. *)
Definition highlighted (s : State) (node : GraphNode) : bool :=
  match hoveredNode s with
  | Some hovered => bool_decide (node_id hovered = node_id node)
  | None => false
  end
  || bool_decide (selectedNode s = Some (node_id node)).

(** Every node of the model has a stored position. *)
Definition allPlaced (g : GraphData) (s : State) : Prop :=
  ∀ n, n ∈ nodes g → is_Some (nodePositions s !! node_id n).

(** * Properties *)

(** ** Invariants of the event loop *)

Section Invariants.
Variable g : GraphData.
Variable P : State → Prop.
Hypothesis P_step : ∀ s input, P s → P (step g s input).

(** A property every handler preserves holds after every trace. *)
Lemma run_invariant s trace : P s → P (run g s trace).
Proof.
  unfold run. revert s.
  induction trace as [|input trace IH]; intros s Hs; [done|].
  simpl. apply IH. by apply P_step.
Qed.
End Invariants.

(** ** The model builder and the position store *)

Lemma initNodePositions_foldl g :
  initNodePositions g = foldl storeNode ∅ (nodes g).
Proof. reflexivity. Qed.

Lemma generate_nodes data gd :
  graph_data data = Some gd →
  nodes (generateGraphData data) = imap buildNode (raw_nodes gd).
Proof. unfold generateGraphData. by intros ->. Qed.

Lemma generate_edges data gd :
  graph_data data = Some gd →
  edges (generateGraphData data) = buildEdge <$> raw_edges gd.
Proof. unfold generateGraphData. by intros ->. Qed.

Lemma generate_node_ids data gd :
  graph_data data = Some gd →
  node_id <$> nodes (generateGraphData data) = raw_id <$> raw_nodes gd.
Proof.
  intros Hgd. rewrite (generate_nodes _ _ Hgd).
  apply list_eq. intros i.
  rewrite !list_lookup_fmap, list_lookup_imap.
  by destruct (raw_nodes gd !! i).
Qed.

(** Keys the fold does not meet keep their entry. *)
Lemma foldl_storeNode_other (l : list GraphNode) (m : gmap string Point) k :
  k ∉ node_id <$> l → foldl storeNode m l !! k = m !! k.
Proof.
  revert m. induction l as [|n l IH]; intros m Hk; [done|].
  rewrite fmap_cons, not_elem_of_cons in Hk. destruct Hk as [Hne Hk].
  simpl. rewrite IH by done.
  unfold storeNode. by rewrite lookup_insert_ne.
Qed.

(** The last node bearing an id decides the entry of that id. *)
Lemma foldl_storeNode_last (pre post : list GraphNode) n (m : gmap string Point) :
  node_id n ∉ node_id <$> post →
  foldl storeNode m (pre ++ n :: post) !! node_id n
  = Some (mkPoint (node_x n) (node_y n)).
Proof.
  intros Hpost. rewrite foldl_app. simpl.
  rewrite foldl_storeNode_other by done.
  unfold storeNode. by rewrite lookup_insert_eq.
Qed.

(** Every key of the folded map was there before or is the id of a node. *)
Lemma foldl_storeNode_dom (l : list GraphNode) (m : gmap string Point) k :
  is_Some (foldl storeNode m l !! k) → is_Some (m !! k) ∨ k ∈ node_id <$> l.
Proof.
  revert m. induction l as [|n l IH]; intros m Hk; [by left|].
  simpl in Hk. apply IH in Hk as [Hk|Hk].
  - unfold storeNode in Hk. destruct (decide (node_id n = k)) as [<-|Hne].
    + right. rewrite fmap_cons. apply elem_of_cons. by left.
    + rewrite lookup_insert_ne in Hk by done. by left.
  - right. rewrite fmap_cons. apply elem_of_cons. by right.
Qed.

Lemma initNodePositions_dom g k :
  is_Some (initNodePositions g !! k) → k ∈ node_id <$> nodes g.
Proof.
  rewrite initNodePositions_foldl. intros Hk.
  apply foldl_storeNode_dom in Hk as [Hk|Hk]; [|done].
  rewrite lookup_empty in Hk. by destruct Hk.
Qed.

(** The seeded store is a function of the sequence of ids alone. *)
Lemma foldl_storeNode_imap (f1 f2 : nat → RawNode → GraphNode)
    (l1 l2 : list RawNode) (m : gmap string Point) :
  (∀ i nd, node_id (f1 i nd) = raw_id nd) →
  (∀ i nd, node_id (f2 i nd) = raw_id nd) →
  (∀ i nd1 nd2, mkPoint (node_x (f1 i nd1)) (node_y (f1 i nd1))
                = mkPoint (node_x (f2 i nd2)) (node_y (f2 i nd2))) →
  raw_id <$> l1 = raw_id <$> l2 →
  foldl storeNode m (imap f1 l1) = foldl storeNode m (imap f2 l2).
Proof.
  revert f1 f2 l2 m.
  induction l1 as [|a l1 IH]; intros f1 f2 [|b l2] m H1 H2 Hpos Hids;
    try done.
  simpl in Hids. injection Hids as Hab Hids. simpl.
  assert (storeNode m (f1 0%nat a) = storeNode m (f2 0%nat b)) as ->.
  { unfold storeNode. by rewrite H1, H2, Hab, (Hpos 0%nat a b). }
  apply IH; try done; intros; unfold compose; auto.
Qed.

(** C2.  The node built from the record at index [i] of the payload is
    placed at [(400 + cos (i * 0.5) * 150, 300 + sin (i * 0.5) * 150)],
    whatever the record holds; hence two payloads with the same sequence of
    node ids (in particular the same payload built twice) give the same
    coordinates at every index and the same seeded position store. *)
Theorem seed_positions_by_index :
  (∀ data gd i nd,
      graph_data data = Some gd → raw_nodes gd !! i = Some nd →
      ∃ n, nodes (generateGraphData data) !! i = Some n
           ∧ node_id n = raw_id nd
           ∧ node_x n = 400 + cos (INR i * 0.5) * 150
           ∧ node_y n = 300 + sin (INR i * 0.5) * 150)
  ∧ (∀ data1 data2 gd1 gd2,
      graph_data data1 = Some gd1 → graph_data data2 = Some gd2 →
      raw_id <$> raw_nodes gd1 = raw_id <$> raw_nodes gd2 →
      (∀ i, (λ n, mkPoint (node_x n) (node_y n)) <$> nodes (generateGraphData data1) !! i
            = (λ n, mkPoint (node_x n) (node_y n)) <$> nodes (generateGraphData data2) !! i)
      ∧ initNodePositions (generateGraphData data1)
        = initNodePositions (generateGraphData data2)).
Proof.
  split.
  - intros data gd i nd Hgd Hnd.
    exists (buildNode i nd). rewrite (generate_nodes _ _ Hgd).
    rewrite list_lookup_imap, Hnd. done.
  - intros data1 data2 gd1 gd2 Hgd1 Hgd2 Hids. split.
    + intros i.
      rewrite (generate_nodes _ _ Hgd1), (generate_nodes _ _ Hgd2).
      rewrite !list_lookup_imap.
      assert (length (raw_nodes gd1) = length (raw_nodes gd2)) as Hlen.
      { by rewrite <- (length_fmap raw_id (raw_nodes gd1)), Hids, length_fmap. }
      destruct (raw_nodes gd1 !! i) as [a|] eqn:Ha;
        destruct (raw_nodes gd2 !! i) as [b|] eqn:Hb; simpl; try done.
      * apply lookup_lt_Some in Ha. apply lookup_ge_None in Hb. lia.
      * apply lookup_lt_Some in Hb. apply lookup_ge_None in Ha. lia.
    + rewrite !initNodePositions_foldl.
      rewrite (generate_nodes _ _ Hgd1), (generate_nodes _ _ Hgd2).
      by apply foldl_storeNode_imap.
Qed.

Lemma seed_positions_by_index_witness :
  (∃ n, nodes (generateGraphData (fiveNodes "first")) !! 3%nat = Some n
        ∧ node_id n = "d"
        ∧ node_x n = 400 + cos (INR 3 * 0.5) * 150
        ∧ node_y n = 300 + sin (INR 3 * 0.5) * 150)
  ∧ initNodePositions (generateGraphData (fiveNodes "first"))
    = initNodePositions (generateGraphData (fiveNodes "second")).
Proof.
  split.
  - apply (proj1 seed_positions_by_index (fiveNodes "first")
             (fiveRecords "first") 3%nat
             (mkRawNode "d" "first" "account" None)); reflexivity.
  - apply (proj2 seed_positions_by_index (fiveNodes "first") (fiveNodes "second")
             (fiveRecords "first") (fiveRecords "second")); reflexivity.
Defined.

(** The builder keeps an entity for each of the two records that share an
    id, the first with the data of the first record. *)
Lemma duplicate_ids_counterexample :
  let g := generateGraphData (mkScanResult (Some twoRecordsOneId)) in
  node_id <$> nodes g = ["a"; "a"]%string
  ∧ node_label <$> nodes g = ["old"; "new"]%string
  ∧ node_type <$> nodes g = ["email"; "person"]%string.
Proof. repeat split. Qed.

(** C6, amended.  The builder makes one entity per record, in the order of
    the payload, also for records that share an id; it is the position store
    that holds one entry per id, the coordinates of the last entity bearing
    it.  A payload without graph data, or with empty lists, gives the empty
    graph and the empty store. *)
Theorem duplicate_ids_and_empty_input :
  (∀ data gd,
      graph_data data = Some gd →
      nodes (generateGraphData data) = imap buildNode (raw_nodes gd)
      ∧ node_id <$> nodes (generateGraphData data) = raw_id <$> raw_nodes gd)
  ∧ (∀ g pre n post,
      nodes g = pre ++ n :: post →
      node_id n ∉ node_id <$> post →
      initNodePositions g !! node_id n = Some (mkPoint (node_x n) (node_y n)))
  ∧ (∀ g k, k ∉ node_id <$> nodes g → initNodePositions g !! k = None)
  ∧ (∀ data,
      graph_data data = None ∨ graph_data data = Some (mkRawGraph [] []) →
      generateGraphData data = mkGraphData [] []
      ∧ initNodePositions (generateGraphData data) = ∅).
Proof.
  split; [|split; [|split]].
  - intros data gd Hgd. split; [by apply generate_nodes|by apply generate_node_ids].
  - intros g pre n post Hg Hpost.
    rewrite initNodePositions_foldl, Hg. by apply foldl_storeNode_last.
  - intros g k Hk.
    rewrite initNodePositions_foldl, foldl_storeNode_other by done.
    apply lookup_empty.
  - intros data [Hnone|Hempty]; unfold generateGraphData, initNodePositions.
    + by rewrite Hnone.
    + by rewrite Hempty.
Qed.

Lemma duplicate_ids_and_empty_input_witness :
  let g := generateGraphData (mkScanResult (Some twoRecordsOneId)) in
  initNodePositions g !! "a" = Some (seedPoint 1)
  ∧ generateGraphData (mkScanResult None) = mkGraphData [] [].
Proof.
  split.
  - apply (proj1 (proj2 duplicate_ids_and_empty_input)
             (generateGraphData (mkScanResult (Some twoRecordsOneId)))
             [buildNode 0 (mkRawNode "a" "old" "email" None)]
             (buildNode 1 (mkRawNode "a" "new" "person" None)) []).
    + reflexivity.
    + apply not_elem_of_nil.
  - apply (proj2 (proj2 (proj2 duplicate_ids_and_empty_input)) (mkScanResult None)).
    left. reflexivity.
Defined.

(** ** Viewport *)

Lemma pixelRatio_nonzero env : pixelRatio env ≠ 0.
Proof.
  unfold pixelRatio. destruct (decide (devicePixelRatio env = 0)); [lra|done].
Qed.

(** The matrix in force while [draw] strokes edges and nodes. *)
Lemma drawPrelude_matrix env r s :
  foldl applyOp identityMatrix (drawPrelude env r s)
  = mkMatrix (pixelRatio env * zoom s) (pixelRatio env * zoom s)
      (pixelRatio env * x (pan s)) (pixelRatio env * y (pan s)).
Proof.
  unfold drawPrelude, identityMatrix. simpl. f_equal; lra.
Qed.

Lemma worldToScreen_affine env r s p :
  worldToScreen env r s p
  = mkPoint (x p * zoom s + x (pan s)) (y p * zoom s + y (pan s)).
Proof.
  unfold worldToScreen. rewrite drawPrelude_matrix. simpl.
  pose proof (pixelRatio_nonzero env). f_equal; field; done.
Qed.

(** C3.  Drawing paints the world point [p] at [p * zoom + pan], in CSS
    pixels from the corner of the canvas, and for a non-zero zoom the map
    the hit test applies to a pointer position, [(s - pan) / zoom] after
    the offset of the canvas is taken off, sends that screen point back to
    [p].  Arithmetic is exact here, so the two points are equal. *)
Theorem screen_to_world_inverts_world_to_screen env r s p :
  zoom s ≠ 0 →
  worldToScreen env r s p
  = mkPoint (x p * zoom s + x (pan s)) (y p * zoom s + y (pan s))
  ∧ toWorld r s (rect_left r + x (worldToScreen env r s p))
                (rect_top r + y (worldToScreen env r s p)) = p.
Proof.
  intros Hz. split; [apply worldToScreen_affine|].
  rewrite worldToScreen_affine. unfold toWorld. simpl.
  destruct p as [px py]. simpl. f_equal; field; done.
Qed.

Lemma screen_to_world_inverts_world_to_screen_witness :
  let env := mkEnv None 2 (λ _, 0) in
  let r := mkDOMRect 8 16 800 400 in
  worldToScreen env r zoomedView (mkPoint 100 100) = mkPoint (100 * 2 + 30) (100 * 2 + -40)
  ∧ toWorld r zoomedView
      (rect_left r + x (worldToScreen env r zoomedView (mkPoint 100 100)))
      (rect_top r + y (worldToScreen env r zoomedView (mkPoint 100 100)))
    = mkPoint 100 100.
Proof.
  apply (screen_to_world_inverts_world_to_screen (mkEnv None 2 (λ _, 0))
           (mkDOMRect 8 16 800 400) zoomedView (mkPoint 100 100)).
  simpl. lra.
Defined.

(** The zoom stays within its bounds under every event. *)
Lemma step_zoom_bounds g s input :
  0.5 <= zoom s <= 2 → 0.5 <= zoom (step g s input) <= 2.
Proof.
  intros Hz. destruct input as [env event].
  destruct event; simpl;
    unfold handleMouseMove, handleMouseDown, handleMouseUp, handleClick,
      handleWheel, zoomInButton, zoomOutButton, resetButton, closeButton;
    repeat case_match; simpl; try done; try lra.
  - unfold Rmin, Rmax, wheelDelta, Rgtb.
    repeat destruct (Rle_dec _ _); destruct (Rgt_dec _ _); lra.
  - unfold Rmin. destruct (Rle_dec _ _); lra.
  - unfold Rmax. destruct (Rle_dec _ _); lra.
Qed.

(** C4.  From the initial zoom of 1, the zoom lies in [[0.5, 2]] after every
    sequence of events: wheel steps in either direction, the zoom-in and
    zoom-out buttons, reset, and every pointer event in between. *)
Theorem zoom_stays_clamped g trace :
  0.5 <= zoom (run g (initialState g) trace) <= 2.
Proof.
  apply (run_invariant g (λ s, 0.5 <= zoom s <= 2)).
  - apply step_zoom_bounds.
  - simpl. lra.
Qed.

(** ** Hit test *)

Lemma hits_within w pos node : hits w pos node = true ↔ within w pos node.
Proof.
  unfold hits, within, Rleb.
  destruct (getNodeSize (node_type node)) as [radius|key].
  - destruct (Rle_dec _ _) as [Hle|Hgt]; split; try done.
    + intros _. by exists radius.
    + intros (r & [= <-] & Hle). done.
  - split; [done|]. by intros (r & [=] & _).
Qed.

Lemma hits_not_within w pos node : hits w pos node = false ↔ ¬ within w pos node.
Proof.
  rewrite <- hits_within. by destruct (hits w pos node).
Qed.

Lemma sqrt_le_radius a r : 0 <= a → 0 <= r → sqrt a <= r ↔ a <= r ^ 2.
Proof.
  intros Ha Hr. rewrite <- (sqrt_pow2 r) at 1 by done. split.
  - intros H. apply sqrt_le_0 in H; [done|done|]. apply pow2_ge_0.
  - intros H. apply sqrt_le_1; [done|apply pow2_ge_0|done].
Qed.

(** The loop returns a node that is hit, and none before it is. *)
Lemma firstHit_Some positions w l n :
  firstHit positions w l = Some n ↔
  ∃ pre post pos,
    l = pre ++ n :: post
    ∧ positions !! node_id n = Some pos
    ∧ within w pos n
    ∧ ∀ k pk, k ∈ pre → positions !! node_id k = Some pk → ¬ within w pk k.
Proof.
  induction l as [|a l IH]; simpl.
  - split; [done|]. intros (pre & post & pos & Hl & _). by destruct pre.
  - split.
    + destruct (positions !! node_id a) as [pa|] eqn:Hpa.
      * destruct (hits w pa a) eqn:Hhit.
        -- intros [= <-]. exists [], l, pa. repeat split; try done.
           ++ by apply hits_within.
           ++ intros k pk Hk. by apply elem_of_nil in Hk.
        -- intros (pre & post & pos & -> & Hpos & Hin & Hpre)%IH.
           exists (a :: pre), post, pos. repeat split; try done.
           intros k pk [->|Hk]%elem_of_cons Hk'; [|by eapply Hpre].
           rewrite Hpa in Hk'. injection Hk' as <-. by apply hits_not_within.
      * intros (pre & post & pos & -> & Hpos & Hin & Hpre)%IH.
        exists (a :: pre), post, pos. repeat split; try done.
        intros k pk [->|Hk]%elem_of_cons Hk'; [|by eapply Hpre].
        by rewrite Hpa in Hk'.
    + intros (pre & post & pos & Hl & Hpos & Hin & Hpre).
      destruct pre as [|b pre]; simpl in Hl; injection Hl as -> ->.
      * rewrite Hpos. by apply hits_within in Hin as ->.
      * assert (firstHit positions w (pre ++ n :: post) = Some n) as Hrest.
        { apply IH. exists pre, post, pos. repeat split; try done.
          intros k pk Hk. apply Hpre. by apply elem_of_cons; right. }
        destruct (positions !! node_id b) as [pb|] eqn:Hpb; [|done].
        assert (hits w pb b = false) as ->; [|done].
        apply hits_not_within. apply Hpre; [|done]. by apply elem_of_cons; left.
Qed.

Lemma firstHit_None positions w l :
  firstHit positions w l = None ↔
  ∀ k pk, k ∈ l → positions !! node_id k = Some pk → ¬ within w pk k.
Proof.
  induction l as [|a l IH]; simpl.
  - split; [|done]. intros _ k pk Hk. by apply elem_of_nil in Hk.
  - split.
    + destruct (positions !! node_id a) as [pa|] eqn:Hpa.
      * destruct (hits w pa a) eqn:Hhit; [done|].
        intros Hl k pk [->|Hk]%elem_of_cons Hk'.
        -- rewrite Hpa in Hk'. injection Hk' as <-. by apply hits_not_within.
        -- by eapply IH.
      * intros Hl k pk [->|Hk]%elem_of_cons Hk'; [by rewrite Hpa in Hk'|].
        by eapply IH.
    + intros Hall.
      assert (firstHit positions w l = None) as Hrest.
      { apply IH. intros k pk Hk. apply Hall. by apply elem_of_cons; right. }
      destruct (positions !! node_id a) as [pa|] eqn:Hpa; [|done].
      assert (hits w pa a = false) as ->; [|done].
      apply hits_not_within. apply Hall; [|done]. by apply elem_of_cons; left.
Qed.

Lemma firstHit_elem positions w l n :
  firstHit positions w l = Some n → n ∈ l.
Proof.
  intros (pre & post & pos & -> & _)%firstHit_Some.
  apply elem_of_app. right. by apply elem_of_cons; left.
Qed.

Lemma getNodeAtPosition_elem env g s cx cy n :
  getNodeAtPosition env g s cx cy = Some n → n ∈ nodes g.
Proof.
  unfold getNodeAtPosition. destruct (canvasRef env); [|done].
  apply firstHit_elem.
Qed.

Lemma getNodeSize_identity : getNodeSize "identity" = Entry 20.
Proof.
  unfold getNodeSize, objectGet.
  replace (nodeSizes !! "identity") with (Some 20) by (by vm_compute).
  destruct (decide (20 = 0)); [lra|done].
Qed.

Lemma synthetic_store :
  nodePositions (initialState syntheticGraph) !! "n" = Some (mkPoint 100 100).
Proof. apply lookup_insert_eq. Qed.

Lemma synthetic_world cx cy :
  toWorld (mkDOMRect 0 0 800 400) (initialState syntheticGraph) cx cy = mkPoint cx cy.
Proof. unfold toWorld. simpl. f_equal; field. Qed.

Lemma zoomed_world cx cy :
  toWorld (mkDOMRect 8 16 800 400) zoomedScene cx cy
  = mkPoint ((cx - 8 - 30) / 2) ((cy - 16 - -40) / 2).
Proof. reflexivity. Qed.

(** C5.  With the canvas mounted, the hit test takes the pointer to the
    world point [w = (pointer - corner - pan) / zoom], the point that
    drawing paints under the pointer, and returns the first node of the
    list whose stored centre is within the radius its type gives it, or
    nothing when there is none.  In the synthetic scene, with zoom 1 and no
    pan, the node of radius 20 at [(100, 100)] is returned for a pointer at
    [(105, 95)] and nothing is returned for a pointer at [(140, 140)]; in
    the same scene seen at zoom 2 with a pan of [(30, -40)] on a canvas
    whose corner is at [(8, 16)], the pointer positions over the same two
    world points, [(248, 166)] and [(318, 256)], give the same answers. *)
Theorem hit_test_first_node_within_radius :
  (∀ env canvas g s clientX clientY,
      canvasRef env = Some canvas →
      let w := mkPoint ((clientX - rect_left (rect canvas) - x (pan s)) / zoom s)
                       ((clientY - rect_top (rect canvas) - y (pan s)) / zoom s) in
      (zoom s ≠ 0 →
       worldToScreen env (rect canvas) s w
       = mkPoint (clientX - rect_left (rect canvas)) (clientY - rect_top (rect canvas)))
      ∧ (∀ n, getNodeAtPosition env g s clientX clientY = Some n ↔
              ∃ pre post pos,
                nodes g = pre ++ n :: post
                ∧ nodePositions s !! node_id n = Some pos
                ∧ within w pos n
                ∧ ∀ k pk, k ∈ pre → nodePositions s !! node_id k = Some pk →
                          ¬ within w pk k)
      ∧ (getNodeAtPosition env g s clientX clientY = None ↔
         ∀ k pk, k ∈ nodes g → nodePositions s !! node_id k = Some pk →
                 ¬ within w pk k))
  ∧ getNodeSize (node_type syntheticNode) = Entry 20
  ∧ getNodeAtPosition cornerEnv syntheticGraph (initialState syntheticGraph) 105 95
    = Some syntheticNode
  ∧ getNodeAtPosition cornerEnv syntheticGraph (initialState syntheticGraph) 140 140
    = None
  ∧ getNodeAtPosition offsetEnv syntheticGraph zoomedScene 248 166
    = Some syntheticNode
  ∧ getNodeAtPosition offsetEnv syntheticGraph zoomedScene 318 256
    = None.
Proof.
  split; [|split; [|split; [|split; [|split]]]].
  - intros env canvas g s cx cy Hc w. split.
    + intros Hz. rewrite worldToScreen_affine. unfold w. simpl. f_equal; field; done.
    + unfold getNodeAtPosition. rewrite Hc.
      split; [intros n; apply firstHit_Some|apply firstHit_None].
  - apply getNodeSize_identity.
  - unfold getNodeAtPosition, cornerEnv, canvasRef, rect.
    apply firstHit_Some. exists [], [], (mkPoint 100 100).
    split; [done|]. split; [apply synthetic_store|]. split.
    + exists 20. split; [apply getNodeSize_identity|].
      rewrite synthetic_world. simpl. apply sqrt_le_radius; nra.
    + intros k pk Hk. by apply elem_of_nil in Hk.
  - unfold getNodeAtPosition, cornerEnv, canvasRef, rect.
    apply firstHit_None. intros k pk Hk Hpk.
    apply list_elem_of_singleton in Hk as ->.
    change (node_id syntheticNode) with "n"%string in Hpk.
    rewrite synthetic_store in Hpk. injection Hpk as <-.
    intros (radius & Hsize & Hle). simpl node_type in Hsize.
    rewrite getNodeSize_identity in Hsize. injection Hsize as <-.
    rewrite synthetic_world in Hle. simpl in Hle.
    rewrite sqrt_le_radius in Hle by nra. nra.
  - unfold getNodeAtPosition, offsetEnv, canvasRef, rect.
    apply firstHit_Some. exists [], [], (mkPoint 100 100).
    split; [done|]. split; [apply synthetic_store|]. split.
    + exists 20. split; [apply getNodeSize_identity|].
      rewrite zoomed_world. simpl. apply sqrt_le_radius; nra.
    + intros k pk Hk. by apply elem_of_nil in Hk.
  - unfold getNodeAtPosition, offsetEnv, canvasRef, rect.
    apply firstHit_None. intros k pk Hk Hpk.
    apply list_elem_of_singleton in Hk as ->.
    change (node_id syntheticNode) with "n"%string in Hpk.
    change (nodePositions zoomedScene)
      with (nodePositions (initialState syntheticGraph)) in Hpk.
    rewrite synthetic_store in Hpk. injection Hpk as <-.
    intros (radius & Hsize & Hle). simpl node_type in Hsize.
    rewrite getNodeSize_identity in Hsize. injection Hsize as <-.
    rewrite zoomed_world in Hle. simpl in Hle.
    rewrite sqrt_le_radius in Hle by nra. nra.
Qed.

Lemma hit_test_first_node_within_radius_witness :
  getNodeAtPosition offsetEnv syntheticGraph zoomedScene 318 256 = None ↔
  ∀ k pk, k ∈ nodes syntheticGraph →
          nodePositions zoomedScene !! node_id k = Some pk →
          ¬ within (mkPoint ((318 - 8 - 30) / 2) ((256 - 16 - -40) / 2)) pk k.
Proof.
  apply (proj1 hit_test_first_node_within_radius offsetEnv
           (mkCanvas (mkDOMRect 8 16 800 400) true) syntheticGraph
           zoomedScene 318 256).
  reflexivity.
Defined.

(** ** Reachable states *)

Lemma or_null_Some o v : or_null o = Some v ↔ o = Some v ∧ v ≠ EmptyString.
Proof.
  unfold or_null, truthy. destruct o as [u|]; [|by split; [|intros []]].
  destruct (decide (u = EmptyString)) as [->|Hu]; split; try done.
  - by intros [[= <-] ?].
  - by intros [= ->].
  - by intros [? _].
Qed.

Lemma or_null_None o : or_null o = None ↔ o = None ∨ o = Some EmptyString.
Proof.
  unfold or_null, truthy. destruct o as [u|]; [|by split; [left|]].
  destruct (decide (u = EmptyString)) as [->|Hu]; split; try done.
  - by right.
  - by intros [|[= ->]].
Qed.

Lemma initialState_storeOfNodes g : storeOfNodes g (initialState g).
Proof. split; [apply initNodePositions_dom|done]. Qed.

Lemma step_storeOfNodes g s input :
  storeOfNodes g s → storeOfNodes g (step g s input).
Proof.
  intros [Hkeys Hdrag]. destruct input as [env event].
  destruct event as [cx cy|cx cy| | |cx cy|dy| | | |]; simpl; try done.
  - unfold handleMouseMove. destruct (canvasRef env) as [canvas|]; [|done].
    destruct (or_null (draggingNode s)) as [a|] eqn:Ha.
    + apply or_null_Some in Ha as [Ha _]. split; [|done]. simpl. intros k.
      destruct (decide (a = k)) as [<-|Hne]; [intros _; by apply Hdrag|].
      rewrite lookup_insert_ne by done. apply Hkeys.
    + by destruct (isDragging s).
  - unfold handleMouseDown.
    destruct (getNodeAtPosition env g s cx cy) as [n|] eqn:Hn; [|done].
    split; [done|]. simpl. intros a [= <-].
    apply list_elem_of_fmap. exists n. split; [done|].
    by eapply getNodeAtPosition_elem.
Qed.

Lemma run_storeOfNodes g trace :
  storeOfNodes g (run g (initialState g) trace).
Proof.
  apply (run_invariant g (storeOfNodes g)).
  - apply step_storeOfNodes.
  - apply initialState_storeOfNodes.
Qed.

(** ** Edge sanitation *)

Lemma drawEdge_dangling env g s e :
  storeOfNodes g s → ¬ anchored g e → drawEdge env s e = [].
Proof.
  intros [Hkeys _] He. unfold drawEdge.
  destruct (nodePositions s !! source e) as [sp|] eqn:Hs; [|done].
  destruct (nodePositions s !! target e) as [tp|] eqn:Ht; [|done].
  destruct He. split; apply Hkeys; by eexists.
Qed.

Lemma concat_fmap_filter {A B} (P : A → Prop) `{!∀ a, Decision (P a)}
    (f : A → list B) (l : list A) :
  (∀ a, ¬ P a → f a = []) → concat (f <$> filter P l) = concat (f <$> l).
Proof.
  intros Hf. induction l as [|a l IH]; [done|].
  rewrite filter_cons. destruct (decide (P a)) as [Ha|Ha]; csimpl.
  - by rewrite IH.
  - by rewrite IH, (Hf a Ha).
Qed.

(** An edge to an id no node bears is part of the built model. *)
Lemma edge_sanitation_counterexample :
  let data := mkScanResult (Some (mkRawGraph
                [ mkRawNode "a" "Alice" "person" None ]
                [ mkRawEdge "a" "ghost" "knows" ])) in
  edges (generateGraphData data) = [ mkGraphEdge "a" "ghost" "knows" ]
  ∧ node_id <$> nodes (generateGraphData data) = [ "a"%string ]
  ∧ "ghost"%string ∉ node_id <$> nodes (generateGraphData data).
Proof.
  repeat split. simpl. intros [=]%list_elem_of_singleton.
Qed.

(** C1, amended.  The model builder keeps every edge of the payload, also
    one whose source or target is the id of no node.  It is the renderer
    that leaves such an edge out: in every state the component reaches,
    [draw] makes no call for it, so that the frame is the frame of the model
    without those edges.  Building and drawing are total functions. *)
Theorem dangling_edges_kept_but_never_drawn data gd :
  graph_data data = Some gd →
  let g := generateGraphData data in
  edges g = buildEdge <$> raw_edges gd
  ∧ ∀ s env,
      reachable data s →
      (∀ e, source e ∉ raw_id <$> raw_nodes gd ∨ target e ∉ raw_id <$> raw_nodes gd →
            drawEdge env s e = [])
      ∧ draw env g s = draw env (sanitized g) s.
Proof.
  intros Hgd g. split; [by apply generate_edges|].
  intros s env [trace ->].
  pose proof (run_storeOfNodes g trace) as Hinv.
  split.
  - intros e He. apply (drawEdge_dangling env g); [done|].
    unfold anchored, g. rewrite (generate_node_ids _ _ Hgd). tauto.
  - unfold draw, drawEdges, drawNodes, sanitized. simpl.
    rewrite concat_fmap_filter; [done|].
    intros e He. by apply (drawEdge_dangling env g).
Qed.

Lemma dangling_edges_kept_but_never_drawn_witness :
  let gd := mkRawGraph [ mkRawNode "a" "Alice" "person" None ]
                       [ mkRawEdge "a" "ghost" "knows" ] in
  let g := generateGraphData (mkScanResult (Some gd)) in
  edges g = buildEdge <$> raw_edges gd
  ∧ ∀ s env,
      reachable (mkScanResult (Some gd)) s →
      (∀ e, source e ∉ raw_id <$> raw_nodes gd ∨ target e ∉ raw_id <$> raw_nodes gd →
            drawEdge env s e = [])
      ∧ draw env g s = draw env (sanitized g) s.
Proof.
  apply (dangling_edges_kept_but_never_drawn
           (mkScanResult (Some (mkRawGraph [ mkRawNode "a" "Alice" "person" None ]
                                           [ mkRawEdge "a" "ghost" "knows" ])))).
  reflexivity.
Defined.

(** ** Gestures *)

(** Every size that is a number lies between 16 and 60. *)
Lemma getNodeSize_bounds type radius :
  getNodeSize type = Entry radius → 16 <= radius <= 60.
Proof.
  unfold getNodeSize, objectGet.
  destruct (nodeSizes !! type) as [size|] eqn:Hsize.
  - destruct (decide (size = 0)); intros [= <-]; [lra|].
    apply elem_of_list_to_map_2 in Hsize.
    repeat (apply elem_of_cons in Hsize as [[= _ ->]|Hsize]; [lra|]).
    by apply elem_of_nil in Hsize.
  - destruct (decide (type ∈ objectPrototypeMembers)); intros [= <-]. lra.
Qed.

Lemma getNodeSize_person : getNodeSize "person" = Entry 60.
Proof.
  unfold getNodeSize, objectGet.
  replace (nodeSizes !! "person") with (Some 60) by (by vm_compute).
  destruct (decide (60 = 0)); [lra|done].
Qed.

Lemma seedPoint_0 : seedPoint 0 = mkPoint 550 300.
Proof.
  unfold seedPoint. replace (INR 0 * 0.5) with 0 by (simpl; lra).
  rewrite cos_0, sin_0. f_equal; lra.
Qed.

Lemma oneNode_store id type :
  nodePositions (initialState (oneNode id type)) !! id = Some (seedPoint 0).
Proof. apply lookup_insert_eq. Qed.

Lemma corner_world g cx cy :
  toWorld (mkDOMRect 0 0 800 400) (initialState g) cx cy = mkPoint cx cy.
Proof. unfold toWorld. simpl. f_equal; field. Qed.

(** In the first render the only node is under the pointer at its seed
    point and not under a pointer at the corner of the canvas. *)
Lemma oneNode_hit id :
  getNodeAtPosition cornerEnv (oneNode id "person")
    (initialState (oneNode id "person")) 550 300
  = Some (buildNode 0 (oneRecord id "person")).
Proof.
  unfold getNodeAtPosition, cornerEnv, canvasRef, rect.
  apply firstHit_Some. exists [], [], (seedPoint 0).
  split; [done|]. split; [apply oneNode_store|]. split.
  - exists 60. split; [apply getNodeSize_person|].
    rewrite corner_world, seedPoint_0. simpl. apply sqrt_le_radius; nra.
  - intros k pk Hk. by apply elem_of_nil in Hk.
Qed.

Lemma oneNode_miss id type :
  getNodeAtPosition cornerEnv (oneNode id type) (initialState (oneNode id type)) 0 0
  = None.
Proof.
  unfold getNodeAtPosition, cornerEnv, canvasRef, rect.
  apply firstHit_None. intros k pk Hk Hpk.
  apply list_elem_of_singleton in Hk as ->.
  change (node_id (buildNode 0 (oneRecord id type))) with id in Hpk.
  rewrite oneNode_store, seedPoint_0 in Hpk. injection Hpk as <-.
  intros (radius & Hsize & Hle). rewrite corner_world in Hle. simpl in Hle.
  apply getNodeSize_bounds in Hsize.
  rewrite sqrt_le_radius in Hle by nra. nra.
Qed.

(** A pointer-down on the node followed, with no release in between, by a
    pointer-down on empty space leaves the component both panning and
    dragging the node. *)
Lemma pan_and_drag_together_counterexample :
  let g := oneNode "a" "person" in
  let s := run g (initialState g)
             [ (cornerEnv, MouseDown 550 300); (cornerEnv, MouseDown 0 0) ] in
  isDragging s = true ∧ draggingNode s = Some "a"%string.
Proof.
  intros g s.
  assert (handleMouseDown cornerEnv g (initialState g) 550 300
          = setDraggingNode (Some "a"%string) (initialState g)) as Hfirst.
  { unfold handleMouseDown, g. by rewrite oneNode_hit. }
  assert (handleMouseDown cornerEnv g
            (setDraggingNode (Some "a"%string) (initialState g)) 0 0
          = setDragStart (mkPoint 0 0)
              (setIsDragging true
                 (setDraggingNode (Some "a"%string) (initialState g)))) as Hsecond.
  { unfold handleMouseDown.
    change (getNodeAtPosition cornerEnv g
              (setDraggingNode (Some "a"%string) (initialState g)) 0 0)
      with (getNodeAtPosition cornerEnv g (initialState g) 0 0).
    unfold g. by rewrite oneNode_miss. }
  unfold s, run. cbn [foldl step]. rewrite Hfirst, Hsecond. done.
Qed.

(** No event but a pointer-down or a release touches the two gesture cells. *)
Lemma step_gesture_cells g s env event :
  (∀ cx cy, event ≠ MouseDown cx cy) → event ≠ MouseUp → event ≠ MouseLeave →
  isDragging (step g s (env, event)) = isDragging s
  ∧ draggingNode (step g s (env, event)) = draggingNode s.
Proof.
  intros Hdown Hup Hleave.
  destruct event as [cx cy|cx cy| | |cx cy|dy| | | |]; simpl; try done.
  - unfold handleMouseMove. by repeat case_match.
  - by destruct (Hdown cx cy).
Qed.

Lemma handleMouseDown_from_idle env g s cx cy :
  idle s → ¬ panningAndDragging (handleMouseDown env g s cx cy).
Proof.
  intros [Hpan Hdrag] [Hpan' Hdrag']. unfold handleMouseDown in *.
  destruct (getNodeAtPosition env g s cx cy); simpl in *.
  - congruence.
  - rewrite Hdrag in Hdrag'. by destruct Hdrag'.
Qed.

Lemma handleMouseUp_idle s : idle (handleMouseUp s).
Proof. done. Qed.

Lemma run_one_gesture g trace : ∀ s pressed,
  (pressed = false → idle s) → ¬ panningAndDragging s →
  oneGestureAtATime pressed trace = true →
  ¬ panningAndDragging (run g s trace).
Proof.
  unfold run. induction trace as [|[env event] trace IH]; intros s pressed Hidle Hex Hok;
    [done|].
  cbn [foldl].
  destruct event as [cx cy|cx cy| | |cx cy|dy| | | |]; simpl in Hok.
  2:{ apply andb_prop in Hok as [Hnp Hok].
      apply negb_true_iff in Hnp. subst pressed.
      apply (IH _ true); [done| |done].
      apply handleMouseDown_from_idle. by apply Hidle. }
  2,3: apply (IH _ false);
         [intros _; apply handleMouseUp_idle | by intros [? _] | done].
  all: match goal with
       | |- context [step ?g0 ?s0 (?env0, ?ev)] =>
           destruct (step_gesture_cells g0 s0 env0 ev) as [Hp Hd]; try done;
           apply (IH _ pressed); [| |done];
           unfold idle, panningAndDragging in *; rewrite Hp, Hd; done
       end.
Qed.

(** C7, amended.  As long as no pointer-down arrives while an earlier one
    is still waiting for its pointer-up or pointer-leave, the component is
    never panning and dragging a node at once, whatever other events come in
    between; and from every state a pointer-up or a pointer-leave clears
    both the panning flag and the dragged id. *)
Theorem one_gesture_at_a_time_is_exclusive :
  (∀ g trace,
      oneGestureAtATime false trace = true →
      ¬ panningAndDragging (run g (initialState g) trace))
  ∧ (∀ g s env,
      idle (step g s (env, MouseUp)) ∧ idle (step g s (env, MouseLeave))).
Proof.
  split.
  - intros g trace Hok. apply (run_one_gesture g trace _ false); try done.
    intros [? _]. done.
  - intros g s env. split; apply handleMouseUp_idle.
Qed.

Lemma one_gesture_at_a_time_is_exclusive_witness :
  let g := oneNode "a" "person" in
  ¬ panningAndDragging
      (run g (initialState g)
         [ (cornerEnv, MouseDown 550 300); (cornerEnv, MouseMove 600 320);
           (cornerEnv, MouseUp); (cornerEnv, Wheel 1);
           (cornerEnv, MouseDown 0 0); (cornerEnv, MouseMove 10 0);
           (cornerEnv, MouseLeave) ]).
Proof.
  apply (proj1 one_gesture_at_a_time_is_exclusive (oneNode "a" "person")).
  reflexivity.
Defined.

(** ** Dragging a node *)

(** A pointer-down on a node whose id is the empty string records that id,
    and the following pointer-move leaves the node where it was. *)
Lemma drag_of_empty_id_counterexample :
  let g := oneNode EmptyString "person" in
  let s := run g (initialState g) [ (cornerEnv, MouseDown 550 300) ] in
  let s' := step g s (cornerEnv, MouseMove 600 320) in
  draggingNode s = Some EmptyString
  ∧ toWorld (mkDOMRect 0 0 800 400) s 600 320 = mkPoint 600 320
  ∧ nodePositions s' !! EmptyString = Some (mkPoint 550 300)
  ∧ nodePositions s' !! EmptyString ≠ Some (mkPoint 600 320).
Proof.
  intros g s s'.
  assert (s = setDraggingNode (Some EmptyString) (initialState g)) as Hs.
  { unfold s, run. cbn [foldl step]. unfold handleMouseDown, g.
    by rewrite oneNode_hit. }
  assert (nodePositions s' !! EmptyString = Some (mkPoint 550 300)) as Hs'.
  { unfold s'. rewrite Hs. cbn [step]. unfold handleMouseMove. simpl.
    rewrite <- seedPoint_0. apply (oneNode_store EmptyString "person"). }
  split; [by rewrite Hs|]. split; [|split; [done|]].
  - rewrite Hs. apply (corner_world g).
  - rewrite Hs'. intros [= H _]. lra.
Qed.

(** C8, amended.  A pointer-move on the mounted canvas while a node with a
    non-empty id [A] is being dragged stores the world point under the
    pointer as the position of [A] and leaves the stored position of every
    other id, the pan and the zoom as they were. *)
Theorem drag_moves_only_the_dragged_node env canvas g s A clientX clientY :
  canvasRef env = Some canvas →
  draggingNode s = Some A →
  A ≠ EmptyString →
  let s' := step g s (env, MouseMove clientX clientY) in
  nodePositions s' !! A = Some (toWorld (rect canvas) s clientX clientY)
  ∧ (∀ B, B ≠ A → nodePositions s' !! B = nodePositions s !! B)
  ∧ pan s' = pan s
  ∧ zoom s' = zoom s.
Proof.
  intros Hc Hd HA. cbn [step]. unfold handleMouseMove. rewrite Hc.
  assert (or_null (draggingNode s) = Some A) as -> by by apply or_null_Some.
  simpl. split; [apply lookup_insert_eq|]. split; [|done].
  intros B HB. by apply lookup_insert_ne.
Qed.

Lemma drag_moves_only_the_dragged_node_witness :
  let g := oneNode "a" "person" in
  let s := setDraggingNode (Some "a"%string) (initialState g) in
  let s' := step g s (cornerEnv, MouseMove 600 320) in
  nodePositions s' !! "a"%string = Some (toWorld (mkDOMRect 0 0 800 400) s 600 320)
  ∧ (∀ B, B ≠ "a"%string → nodePositions s' !! B = nodePositions s !! B)
  ∧ pan s' = pan s
  ∧ zoom s' = zoom s.
Proof.
  apply (drag_moves_only_the_dragged_node cornerEnv
           (mkCanvas (mkDOMRect 0 0 800 400) true) (oneNode "a" "person")
           (setDraggingNode (Some "a"%string) (initialState (oneNode "a" "person")))
           "a"%string 600 320); [reflexivity|reflexivity|discriminate].
Defined.

(** ** Zero-length gestures *)

(** A wheel event without vertical scroll changes the zoom of the first
    render from 1 to 1.1. *)
Lemma zero_wheel_counterexample :
  let g := oneNode "a" "person" in
  zoom (initialState g) = 1
  ∧ zoom (step g (initialState g) (cornerEnv, Wheel 0)) = 1.1
  ∧ zoom (step g (initialState g) (cornerEnv, Wheel 0)) ≠ zoom (initialState g).
Proof.
  assert (zoom (step (oneNode "a" "person") (initialState (oneNode "a" "person"))
                  (cornerEnv, Wheel 0)) = 1.1) as Hz.
  { simpl. unfold wheelDelta, Rgtb, Rmin, Rmax.
    destruct (Rgt_dec 0 0); [lra|]. repeat destruct (Rle_dec _ _); lra. }
  simpl in *. split; [done|]. split; [done|]. rewrite Hz. lra.
Qed.

(** C9, amended.  A wheel event with zero scroll delta is handled as a
    zoom-in step: the zoom becomes [min (max (zoom * 1.1) 0.5) 2], which for
    a zoom within the bounds is the old zoom only at the upper bound 2; pan,
    node positions, hover, selection and the gesture cells keep their values.
    A pointer-move of zero length while panning, the pointer being at the
    pan anchor, changes nothing at all. *)
Theorem zero_wheel_zooms_in_zero_pan_is_ignored :
  (∀ g s env,
      let s' := step g s (env, Wheel 0) in
      zoom s' = Rmin (Rmax (zoom s * 1.1) 0.5) 2
      ∧ (0.5 <= zoom s <= 2 → zoom s' = zoom s ↔ zoom s = 2)
      ∧ pan s' = pan s
      ∧ nodePositions s' = nodePositions s
      ∧ hoveredNode s' = hoveredNode s
      ∧ selectedNode s' = selectedNode s
      ∧ isDragging s' = isDragging s
      ∧ draggingNode s' = draggingNode s
      ∧ dragStart s' = dragStart s)
  ∧ (∀ g s env,
      isDragging s = true →
      or_null (draggingNode s) = None →
      step g s (env, MouseMove (x (dragStart s)) (y (dragStart s))) = s).
Proof.
  split.
  - intros g s env. cbn [step]. unfold handleWheel. simpl.
    assert (wheelDelta 0 = 1.1) as ->.
    { unfold wheelDelta, Rgtb. destruct (Rgt_dec 0 0); [lra|done]. }
    split; [done|]. split; [|done].
    intros Hz. unfold Rmin, Rmax. repeat destruct (Rle_dec _ _); split; lra.
  - intros g s env Hpan Hdrag. cbn [step]. unfold handleMouseMove.
    destruct (canvasRef env); [|done].
    rewrite Hdrag, Hpan. destruct s as [z [px py] d [ax ay] h m dn sel].
    unfold setDragStart, setPan. simpl. f_equal. f_equal; lra.
Qed.

Lemma zero_wheel_zooms_in_zero_pan_is_ignored_witness :
  let g := oneNode "a" "person" in
  let s := setDragStart (mkPoint 10 20) (setIsDragging true (initialState g)) in
  step g s (cornerEnv, MouseMove (x (dragStart s)) (y (dragStart s))) = s.
Proof.
  apply (proj2 zero_wheel_zooms_in_zero_pan_is_ignored (oneNode "a" "person")
           (setDragStart (mkPoint 10 20)
              (setIsDragging true (initialState (oneNode "a" "person"))))
           cornerEnv); reflexivity.
Defined.

(** ** Selection *)

Lemma step_selected_not_empty g s input :
  selectedNode s ≠ Some EmptyString → selectedNode (step g s input) ≠ Some EmptyString.
Proof.
  intros Hs. destruct input as [env event].
  destruct event as [cx cy|cx cy| | |cx cy|dy| | | |]; simpl; try done.
  - unfold handleMouseMove. by repeat case_match.
  - unfold handleMouseDown. by repeat case_match.
  - unfold clickedId. by intros [_ ?]%or_null_Some.
Qed.

(** C10.  A click reports [node?.id || null] for the node the hit test
    returns: the id of the node when that id is not empty and [null]
    otherwise, so that a click on a node whose id is the empty string clears
    the selection, and in no state the component reaches is the empty string
    the selected id. *)
Theorem empty_id_is_never_selected :
  (∀ g s env clientX clientY,
      selectedNode (step g s (env, Click clientX clientY))
      = match getNodeAtPosition env g s clientX clientY with
        | Some node => if decide (node_id node = EmptyString) then None
                       else Some (node_id node)
        | None => None
        end)
  ∧ (∀ g trace, selectedNode (run g (initialState g) trace) ≠ Some EmptyString)
  ∧ (let g := oneNode EmptyString "person" in
     getNodeAtPosition cornerEnv g (initialState g) 550 300
     = Some (buildNode 0 (oneRecord EmptyString "person"))
     ∧ selectedNode (step g (initialState g) (cornerEnv, Click 550 300)) = None).
Proof.
  split; [|split].
  - intros g s env cx cy. cbn [step]. unfold handleClick, clickedId. simpl.
    destruct (getNodeAtPosition env g s cx cy) as [n|]; [|done].
    unfold or_null, truthy. simpl. by destruct (decide (node_id n = EmptyString)).
  - intros g trace.
    apply (run_invariant g (λ s, selectedNode s ≠ Some EmptyString)); [|done].
    apply step_selected_not_empty.
  - split; [apply oneNode_hit|].
    cbn [step]. unfold handleClick, clickedId. rewrite oneNode_hit. done.
Qed.

(** * Further properties of the component *)

(** ** Panning *)

(** One pointer-move of a pan shifts the pan by the way the pointer went
    since the anchor and makes the pointer the new anchor. *)
Lemma pan_move_step env canvas g s cx cy :
  canvasRef env = Some canvas →
  isDragging s = true →
  or_null (draggingNode s) = None →
  step g s (env, MouseMove cx cy)
  = setDragStart (mkPoint cx cy)
      (setPan (mkPoint (x (pan s) + (cx - x (dragStart s)))
                       (y (pan s) + (cy - y (dragStart s)))) s).
Proof.
  intros Hc Hpan Hdrag. cbn [step]. unfold handleMouseMove.
  by rewrite Hc, Hdrag, Hpan.
Qed.

Lemma pan_moves_accumulate g ps : ∀ s,
  mounted ps →
  isDragging s = true →
  or_null (draggingNode s) = None →
  let s' := run g s (moves ps) in
  let pn := lastPoint (dragStart s) ps in
  x (pan s') = x (pan s) + (x pn - x (dragStart s))
  ∧ y (pan s') = y (pan s) + (y pn - y (dragStart s))
  ∧ x (dragStart s') = x pn ∧ y (dragStart s') = y pn
  ∧ zoom s' = zoom s
  ∧ nodePositions s' = nodePositions s
  ∧ isDragging s' = true
  ∧ draggingNode s' = draggingNode s.
Proof.
  induction ps as [|[env [px py]] ps IH]; intros s Hm Hpan Hdrag.
  - simpl. repeat split; try done; lra.
  - apply Forall_cons in Hm as [[canvas Hc] Hm].
    unfold run, moves. rewrite fmap_cons. cbn [foldl fst snd x y].
    rewrite (pan_move_step env canvas) by done.
    set (s1 := setDragStart _ _).
    destruct (IH s1 Hm) as (Hx & Hy & Hdx & Hdy & Hz & Hpos & Hflag & Hnode);
      [done|done|].
    unfold run, moves in Hx, Hy, Hdx, Hdy, Hz, Hpos, Hflag, Hnode.
    unfold lastPoint in *. cbn [foldl snd].
    change (dragStart s1) with (mkPoint px py) in Hx, Hy, Hdx, Hdy.
    rewrite Hx, Hy, Hdx, Hdy, Hz, Hpos, Hflag, Hnode.
    simpl. repeat split; try done; lra.
Qed.

(** X1.  A pan gesture, a pointer-down on empty space at [p0] followed by
    pointer-moves on the mounted canvas, shifts the pan by the way from
    [p0] to the last pointer position, however many moves it took, and
    leaves the zoom and the node positions alone. *)
Theorem pan_gesture_accumulates g s env0 p0 ps :
  draggingNode s = None →
  getNodeAtPosition env0 g s (x p0) (y p0) = None →
  mounted ps →
  let s' := run g s ((env0, MouseDown (x p0) (y p0)) :: moves ps) in
  let pn := lastPoint p0 ps in
  x (pan s') = x (pan s) + (x pn - x p0)
  ∧ y (pan s') = y (pan s) + (y pn - y p0)
  ∧ zoom s' = zoom s
  ∧ nodePositions s' = nodePositions s.
Proof.
  intros Hdrag Hmiss Hm. unfold run. cbn [foldl step].
  unfold handleMouseDown. rewrite Hmiss.
  set (s1 := setDragStart _ _).
  destruct (pan_moves_accumulate g ps s1 Hm) as (Hx & Hy & _ & _ & Hz & Hpos & _);
    [done|by simpl; rewrite Hdrag|].
  unfold run in Hx, Hy, Hz, Hpos. rewrite Hx, Hy, Hz, Hpos.
  destruct p0 as [x0 y0]. done.
Qed.

Lemma pan_gesture_accumulates_witness :
  let g := oneNode "a" "person" in
  let s' := run g (initialState g)
              ((cornerEnv, MouseDown 0 0)
               :: moves [ (cornerEnv, mkPoint 10 0); (cornerEnv, mkPoint 10 10) ]) in
  x (pan s') = 0 + (10 - 0) ∧ y (pan s') = 0 + (10 - 0)
  ∧ zoom s' = 1
  ∧ nodePositions s' = nodePositions (initialState g).
Proof.
  apply (pan_gesture_accumulates (oneNode "a" "person")
           (initialState (oneNode "a" "person")) cornerEnv (mkPoint 0 0)
           [ (cornerEnv, mkPoint 10 0); (cornerEnv, mkPoint 10 10) ]).
  - reflexivity.
  - apply oneNode_miss.
  - repeat constructor; by eexists.
Defined.

(** X2.  While panning, the world point that was under the anchor is the
    world point under the pointer after the move: the diagram follows the
    pointer. *)
Theorem pan_keeps_grabbed_point env canvas g s clientX clientY :
  canvasRef env = Some canvas →
  isDragging s = true →
  or_null (draggingNode s) = None →
  toWorld (rect canvas) (step g s (env, MouseMove clientX clientY)) clientX clientY
  = toWorld (rect canvas) s (x (dragStart s)) (y (dragStart s)).
Proof.
  intros Hc Hpan Hdrag. rewrite (pan_move_step env canvas) by done.
  unfold toWorld. simpl. unfold Rdiv. f_equal; f_equal; lra.
Qed.

Lemma pan_keeps_grabbed_point_witness :
  let g := oneNode "a" "person" in
  let s := setDragStart (mkPoint 10 20) (setIsDragging true (initialState g)) in
  toWorld (mkDOMRect 0 0 800 400) (step g s (cornerEnv, MouseMove 50 60)) 50 60
  = toWorld (mkDOMRect 0 0 800 400) s 10 20.
Proof.
  apply (pan_keeps_grabbed_point cornerEnv (mkCanvas (mkDOMRect 0 0 800 400) true)
           (oneNode "a" "person")
           (setDragStart (mkPoint 10 20)
              (setIsDragging true (initialState (oneNode "a" "person")))) 50 60);
    reflexivity.
Defined.

(** ** Hit region and drawing *)

(** X3.  For a positive zoom the hit test and the renderer agree: the
    pointer hits a node exactly when the size of its type is a number and
    the distance on the canvas from the pointer to the painted centre of
    the node is at most the painted radius, [zoom * size]. *)
Theorem hit_region_is_painted_disc env r s pos node clientX clientY :
  0 < zoom s →
  within (toWorld r s clientX clientY) pos node ↔
  ∃ radius,
    getNodeSize (node_type node) = Entry radius
    ∧ sqrt ((clientX - rect_left r - x (worldToScreen env r s pos)) ^ 2
            + (clientY - rect_top r - y (worldToScreen env r s pos)) ^ 2)
      <= zoom s * radius.
Proof.
  intros Hz. rewrite worldToScreen_affine. unfold within, toWorld. cbn [x y].
  set (dx := (clientX - rect_left r - x (pan s)) / zoom s - x pos).
  set (dy := (clientY - rect_top r - y (pan s)) / zoom s - y pos).
  replace (clientX - rect_left r - (x pos * zoom s + x (pan s)))
    with (zoom s * dx) by (unfold dx; field; lra).
  replace (clientY - rect_top r - (y pos * zoom s + y (pan s)))
    with (zoom s * dy) by (unfold dy; field; lra).
  assert (0 < zoom s ^ 2) as Hz2 by nra.
  assert (∀ radius, 16 <= radius <= 60 →
            sqrt (dx ^ 2 + dy ^ 2) <= radius ↔
            sqrt ((zoom s * dx) ^ 2 + (zoom s * dy) ^ 2) <= zoom s * radius) as Hscale.
  { intros radius Hsize. rewrite !sqrt_le_radius by nra.
    replace ((zoom s * dx) ^ 2 + (zoom s * dy) ^ 2)
      with (zoom s ^ 2 * (dx ^ 2 + dy ^ 2)) by ring.
    replace ((zoom s * radius) ^ 2) with (zoom s ^ 2 * radius ^ 2) by ring.
    split; intros H.
    - by apply Rmult_le_compat_l; [lra|].
    - by apply (Rmult_le_reg_l (zoom s ^ 2)). }
  split; intros (radius & Hsize & Hle); exists radius; (split; [done|]);
    apply (Hscale radius (getNodeSize_bounds _ _ Hsize)); done.
Qed.

Lemma hit_region_is_painted_disc_witness :
  within (toWorld (mkDOMRect 8 16 800 400) zoomedView 250 170) (mkPoint 100 100)
    syntheticNode ↔
  ∃ radius,
    getNodeSize "identity" = Entry radius
    ∧ sqrt ((250 - 8 - x (worldToScreen cornerEnv (mkDOMRect 8 16 800 400) zoomedView
                            (mkPoint 100 100))) ^ 2
            + (170 - 16 - y (worldToScreen cornerEnv (mkDOMRect 8 16 800 400) zoomedView
                               (mkPoint 100 100))) ^ 2)
      <= 2 * radius.
Proof.
  apply (hit_region_is_painted_disc cornerEnv (mkDOMRect 8 16 800 400) zoomedView
           (mkPoint 100 100) syntheticNode 250 170).
  simpl. lra.
Defined.

(** ** Dragging *)

(** A node of the list that is within reach makes the loop return a node. *)
Lemma firstHit_is_Some positions w l n pos :
  n ∈ l → positions !! node_id n = Some pos → within w pos n →
  is_Some (firstHit positions w l).
Proof.
  intros Hn Hpos Hin.
  destruct (firstHit positions w l) as [m|] eqn:Hhit; [by eexists|].
  destruct (proj1 (firstHit_None positions w l) Hhit n pos Hn Hpos Hin).
Qed.

Lemma within_centre w node radius :
  getNodeSize (node_type node) = Entry radius → within w w node.
Proof.
  intros Hsize. exists radius. split; [done|].
  apply getNodeSize_bounds in Hsize. apply sqrt_le_radius; nra.
Qed.

Lemma drag_move_step env canvas g s A cx cy :
  canvasRef env = Some canvas →
  draggingNode s = Some A →
  A ≠ EmptyString →
  step g s (env, MouseMove cx cy)
  = setNodePositions (<[A := toWorld (rect canvas) s cx cy]> (nodePositions s)) s.
Proof.
  intros Hc Hd HA. cbn [step]. unfold handleMouseMove. rewrite Hc.
  assert (or_null (draggingNode s) = Some A) as Hor by (by apply or_null_Some).
  by rewrite Hor.
Qed.

(** X4.  After a pointer-move that drags a node with a non-empty id whose
    type has a number as its size, the stored centre of the node is the
    world point under the pointer, [(pointer - corner - pan) / zoom], so
    that a hit test at the pointer finds a node. *)
Theorem dragged_node_follows_pointer env canvas g s n radius clientX clientY :
  canvasRef env = Some canvas →
  n ∈ nodes g →
  draggingNode s = Some (node_id n) →
  node_id n ≠ EmptyString →
  getNodeSize (node_type n) = Entry radius →
  let s' := step g s (env, MouseMove clientX clientY) in
  nodePositions s' !! node_id n
  = Some (mkPoint ((clientX - rect_left (rect canvas) - x (pan s')) / zoom s')
                  ((clientY - rect_top (rect canvas) - y (pan s')) / zoom s'))
  ∧ pan s' = pan s
  ∧ zoom s' = zoom s
  ∧ is_Some (getNodeAtPosition env g s' clientX clientY).
Proof.
  intros Hc Hn Hd Hid Hsize.
  rewrite (drag_move_step env canvas _ _ (node_id n)) by done.
  set (s' := setNodePositions _ s).
  assert (nodePositions s' !! node_id n
          = Some (toWorld (rect canvas) s' clientX clientY))
    as Hpos by apply lookup_insert_eq.
  split; [done|]. split; [done|]. split; [done|].
  unfold getNodeAtPosition. rewrite Hc.
  apply (firstHit_is_Some _ _ _ n (toWorld (rect canvas) s' clientX clientY));
    [done|done|by eapply within_centre].
Qed.

Lemma dragged_node_follows_pointer_witness :
  let g := oneNode "a" "person" in
  let s := setDraggingNode (Some "a"%string) (initialState g) in
  let s' := step g s (cornerEnv, MouseMove 600 320) in
  nodePositions s' !! "a"%string
  = Some (mkPoint ((600 - 0 - x (pan s')) / zoom s') ((320 - 0 - y (pan s')) / zoom s'))
  ∧ pan s' = pan s
  ∧ zoom s' = zoom s
  ∧ is_Some (getNodeAtPosition cornerEnv g s' 600 320).
Proof.
  apply (dragged_node_follows_pointer cornerEnv
           (mkCanvas (mkDOMRect 0 0 800 400) true) (oneNode "a" "person")
           (setDraggingNode (Some "a"%string) (initialState (oneNode "a" "person")))
           (buildNode 0 (oneRecord "a" "person")) 60 600 320);
    [reflexivity| |reflexivity|discriminate|apply getNodeSize_person].
  apply list_elem_of_singleton. reflexivity.
Defined.

(** Pointer-moves while the node [A] is dragged keep the pan, the zoom and
    the dragged id, and change the store at [A] at most. *)
Lemma drag_moves_invariant g s A trace :
  draggingNode s = Some A →
  A ≠ EmptyString →
  Forall isMouseMove trace →
  let s1 := run g s trace in
  pan s1 = pan s ∧ zoom s1 = zoom s ∧ draggingNode s1 = Some A
  ∧ ∀ q, <[A := q]> (nodePositions s1) = <[A := q]> (nodePositions s).
Proof.
  intros Hd HA. unfold run.
  induction trace as [|[env event] trace IH] using rev_ind; intros Hmoves; [done|].
  apply Forall_app in Hmoves as [Hmoves Hlast].
  apply Forall_singleton in Hlast as (cx & cy & Hev).
  simpl in Hev. subst event. rewrite foldl_app. cbn [foldl].
  destruct (IH Hmoves) as (Hpan & Hzoom & Hdrag & Hstore).
  set (s1 := foldl (step g) s trace) in *.
  destruct (canvasRef env) as [canvas|] eqn:Hc.
  - rewrite (drag_move_step env canvas _ _ A) by done. simpl.
    repeat split; try done.
    intros q. by rewrite insert_insert_eq, Hstore.
  - cbn [step]. unfold handleMouseMove. by rewrite Hc.
Qed.

(** X5.  However many pointer-moves a drag of the node with the non-empty
    id [A] takes, the store after the last one is the store from before the
    drag with the world point under the last pointer position at [A]: only
    the last move counts, and pan and zoom are as before. *)
Theorem drag_moves_keep_last_position env canvas g s A trace clientX clientY :
  canvasRef env = Some canvas →
  draggingNode s = Some A →
  A ≠ EmptyString →
  Forall isMouseMove trace →
  let s' := run g s (trace ++ [ (env, MouseMove clientX clientY) ]) in
  nodePositions s' = <[A := toWorld (rect canvas) s clientX clientY]> (nodePositions s)
  ∧ pan s' = pan s
  ∧ zoom s' = zoom s.
Proof.
  intros Hc Hd HA Hmoves.
  destruct (drag_moves_invariant g s A trace Hd HA Hmoves)
    as (Hpan & Hzoom & Hdrag & Hstore).
  unfold run in *. rewrite foldl_app. cbn [foldl].
  rewrite (drag_move_step env canvas _ _ A) by done. simpl.
  rewrite Hstore. repeat split; try done.
  unfold toWorld. by rewrite Hpan, Hzoom.
Qed.

Lemma drag_moves_keep_last_position_witness :
  let g := oneNode "a" "person" in
  let s := setDraggingNode (Some "a"%string) (initialState g) in
  let s' := run g s ([ (cornerEnv, MouseMove 560 300); (cornerEnv, MouseMove 580 310) ]
                     ++ [ (cornerEnv, MouseMove 600 320) ]) in
  nodePositions s'
  = <["a"%string := toWorld (mkDOMRect 0 0 800 400) s 600 320]> (nodePositions s)
  ∧ pan s' = pan s
  ∧ zoom s' = zoom s.
Proof.
  apply (drag_moves_keep_last_position cornerEnv
           (mkCanvas (mkDOMRect 0 0 800 400) true) (oneNode "a" "person")
           (setDraggingNode (Some "a"%string) (initialState (oneNode "a" "person")))
           "a"%string
           [ (cornerEnv, MouseMove 560 300); (cornerEnv, MouseMove 580 310) ]
           600 320); [reflexivity|reflexivity|discriminate|].
  repeat constructor; by do 2 eexists.
Defined.

(** X6.  A drag and drop, a pointer-down that hits a node with a non-empty
    id, a pointer-move on the mounted canvas and a pointer-up, stores the
    world point under the drop position for that id, changes no other
    entry, pan, zoom or selection, and ends with no gesture open. *)
Theorem drag_and_drop_moves_node g s env0 env canvas n downX downY clientX clientY :
  getNodeAtPosition env0 g s downX downY = Some n →
  node_id n ≠ EmptyString →
  canvasRef env = Some canvas →
  let s' := run g s [ (env0, MouseDown downX downY);
                      (env, MouseMove clientX clientY);
                      (env, MouseUp) ] in
  nodePositions s'
  = <[node_id n := toWorld (rect canvas) s clientX clientY]> (nodePositions s)
  ∧ idle s'
  ∧ pan s' = pan s
  ∧ zoom s' = zoom s
  ∧ selectedNode s' = selectedNode s.
Proof.
  intros Hhit Hid Hc. unfold run. cbn [foldl].
  assert (step g s (env0, MouseDown downX downY)
          = setDraggingNode (Some (node_id n)) s) as ->.
  { cbn [step]. unfold handleMouseDown. by rewrite Hhit. }
  rewrite (drag_move_step env canvas _ _ (node_id n)) by done.
  done.
Qed.

Lemma drag_and_drop_moves_node_witness :
  let g := oneNode "a" "person" in
  let s' := run g (initialState g)
              [ (cornerEnv, MouseDown 550 300); (cornerEnv, MouseMove 600 320);
                (cornerEnv, MouseUp) ] in
  nodePositions s'
  = <["a"%string := toWorld (mkDOMRect 0 0 800 400) (initialState g) 600 320]>
      (nodePositions (initialState g))
  ∧ idle s'
  ∧ pan s' = pan (initialState g)
  ∧ zoom s' = zoom (initialState g)
  ∧ selectedNode s' = selectedNode (initialState g).
Proof.
  apply (drag_and_drop_moves_node (oneNode "a" "person")
           (initialState (oneNode "a" "person")) cornerEnv cornerEnv
           (mkCanvas (mkDOMRect 0 0 800 400) true)
           (buildNode 0 (oneRecord "a" "person")) 550 300 600 320).
  - apply oneNode_hit.
  - discriminate.
  - reflexivity.
Defined.

(** ** What is drawn *)

Lemma foldl_storeNode_covers (l : list GraphNode) (m : gmap string Point) k :
  is_Some (m !! k) ∨ k ∈ node_id <$> l → is_Some (foldl storeNode m l !! k).
Proof.
  revert m. induction l as [|n l IH]; intros m Hk.
  - destruct Hk as [Hk|Hk]; [done|]. by apply elem_of_nil in Hk.
  - simpl. apply IH. unfold storeNode.
    destruct (decide (node_id n = k)) as [<-|Hne].
    + left. rewrite lookup_insert_eq. by eexists.
    + rewrite lookup_insert_ne by done.
      destruct Hk as [Hk|Hk]; [by left|right].
      rewrite fmap_cons in Hk. by apply elem_of_cons in Hk as [?|?].
Qed.

Lemma initialState_allPlaced g : allPlaced g (initialState g).
Proof.
  intros n Hn. simpl. rewrite initNodePositions_foldl.
  apply foldl_storeNode_covers. right. apply list_elem_of_fmap. by exists n.
Qed.

Lemma step_allPlaced g s input : allPlaced g s → allPlaced g (step g s input).
Proof.
  intros Hs. destruct input as [env event].
  destruct event as [cx cy|cx cy| | |cx cy|dy| | | |]; simpl; try done.
  - unfold handleMouseMove. destruct (canvasRef env) as [canvas|]; [|done].
    destruct (or_null (draggingNode s)) as [a|]; [|by destruct (isDragging s)].
    intros n Hn. simpl. destruct (decide (a = node_id n)) as [->|Hne].
    + rewrite lookup_insert_eq. by eexists.
    + rewrite lookup_insert_ne by done. by apply Hs.
  - unfold handleMouseDown. by destruct (getNodeAtPosition env g s cx cy).
Qed.

(** A type that names no inherited member has a number as its size and a
    text as its colour. *)
Lemma styled_type type :
  type ∉ objectPrototypeMembers →
  ∃ radius color,
    getNodeSize type = Entry radius ∧ getNodeColor type = Entry color.
Proof.
  intros Htype. unfold getNodeSize, getNodeColor, objectGet.
  destruct (decide (type ∈ objectPrototypeMembers)); [done|].
  destruct (nodeSizes !! type) as [size|], (nodeColors !! type) as [color|];
    try destruct (decide (size = 0)); by eexists _, _.
Qed.

(** X7.  In every state reached from the first render, a frame drawn on a
    mounted canvas with a context holds, for each node of the model whose
    type names no inherited member, the calls that fill and stroke a circle
    of the radius of its type around its stored position and write its
    label below; and, for each edge of the model whose two endpoints are
    ids of nodes, the calls that stroke a line from the position of its
    source to that of its target and write its label on a chip at the
    midpoint. *)
Theorem nodes_and_anchored_edges_always_drawn g trace env canvas :
  canvasRef env = Some canvas →
  has_context canvas = true →
  let s := run g (initialState g) trace in
  (∀ n, n ∈ nodes g → node_type n ∉ objectPrototypeMembers →
        ∃ pos radius color before after,
          nodePositions s !! node_id n = Some pos
          ∧ getNodeSize (node_type n) = Entry radius
          ∧ getNodeColor (node_type n) = Entry color
          ∧ draw env g s
            = before
              ++ [ BeginPath;
                   Arc (x pos) (y pos) (Num radius) 0 (PI * 2);
                   FillStyle (if highlighted s n then color
                              else (color ++ "cc")%string);
                   Fill;
                   StrokeStyle (if highlighted s n then "#ffffff"
                                else "rgba(0, 0, 0, 0.3)");
                   LineWidth (if highlighted s n then 3 else 1);
                   Stroke;
                   Font "11px Geist, sans-serif";
                   FillStyle "#ffffff";
                   TextAlign "center";
                   TextBaseline "top";
                   FillText (nodeLabel n) (x pos) (Num (y pos + radius + 5)) ]
              ++ after)
  ∧ (∀ e, e ∈ edges g → anchored g e →
        ∃ sp tp before after,
          nodePositions s !! source e = Some sp
          ∧ nodePositions s !! target e = Some tp
          ∧ let label := str_or (relationship e) "connected" in
            let midX := (x sp + x tp) / 2 in
            let midY := (y sp + y tp) / 2 in
            draw env g s
            = before
              ++ [ BeginPath;
                   MoveTo (x sp) (y sp);
                   LineTo (x tp) (y tp);
                   StrokeStyle "rgba(74, 144, 226, 0.6)";
                   LineWidth 2;
                   Stroke;
                   Font "10px Geist, sans-serif";
                   FillStyle "rgba(255, 255, 255, 0.9)";
                   TextAlign "center";
                   TextBaseline "middle";
                   FillStyle "rgba(0, 0, 0, 0.7)";
                   FillRect (midX - measureText env label / 2 - 4) (midY - 7)
                     (measureText env label + 8) 14;
                   FillStyle "#ffffff";
                   FillText label midX (Num midY) ]
              ++ after).
Proof.
  intros Hc Hctx s.
  assert (allPlaced g s) as Hplaced.
  { apply (run_invariant g (allPlaced g)); [apply step_allPlaced|].
    apply initialState_allPlaced. }
  unfold draw. rewrite Hc, Hctx. split.
  - intros n Hn Htype. destruct (Hplaced n Hn) as [pos Hpos].
    destruct (styled_type _ Htype) as (radius & color & Hsize & Hcolor).
    apply list_elem_of_split in Hn as (l1 & l2 & Hnodes).
    exists pos, radius, color.
    exists (drawPrelude env (rect canvas) s ++ drawEdges env g s
            ++ concat (drawNode s <$> l1)
            ++ (if isSensitive (node_type n)
                then [ BeginPath;
                       Arc (x pos) (y pos) (Num (radius + 8)) 0 (PI * 2);
                       FillRadialGradient (x pos) (y pos) (Num radius)
                         (x pos) (y pos) (Num (radius + 8))
                         [ (0, "rgba(255, 0, 84, 0.4)"); (1, "rgba(255, 0, 84, 0)") ];
                       Fill ]
                else [])).
    exists ((if isSensitive (node_type n)
             then [ FillStyle "#ffffff";
                    Font "bold 14px Geist, sans-serif";
                    TextAlign "center";
                    TextBaseline "middle";
                    FillText "⚠" (x pos) (Num (y pos)) ]
             else [])
            ++ concat (drawNode s <$> l2) ++ [ Restore ]).
    split; [done|]. split; [done|]. split; [done|].
    unfold drawNodes. rewrite Hnodes, fmap_app, fmap_cons, concat_app, concat_cons.
    unfold drawNode at 2. rewrite Hpos, Hsize, Hcolor. unfold highlighted, argOf.
    repeat rewrite <- app_assoc. reflexivity.
  - intros e He [Hsrc Htgt].
    apply list_elem_of_fmap in Hsrc as (ns & Hids & Hns).
    apply list_elem_of_fmap in Htgt as (nt & Hidt & Hnt).
    destruct (Hplaced ns Hns) as [sp Hsp]. destruct (Hplaced nt Hnt) as [tp Htp].
    rewrite <- Hids in Hsp. rewrite <- Hidt in Htp.
    apply list_elem_of_split in He as (l1 & l2 & Hedges).
    exists sp, tp.
    exists (drawPrelude env (rect canvas) s ++ concat (drawEdge env s <$> l1)).
    exists (concat (drawEdge env s <$> l2) ++ drawNodes g s ++ [ Restore ]).
    split; [done|]. split; [done|]. cbv zeta.
    unfold drawEdges. rewrite Hedges, fmap_app, fmap_cons, concat_app, concat_cons.
    unfold drawEdge at 2. rewrite Hsp, Htp.
    repeat rewrite <- app_assoc. reflexivity.
Qed.

Lemma nodes_and_anchored_edges_always_drawn_witness :
  ∃ pos radius color before after,
    nodePositions (run (oneNode "a" "person") (initialState (oneNode "a" "person"))
                     [ (cornerEnv, MouseDown 550 300) ]) !! "a"%string = Some pos
    ∧ getNodeSize "person" = Entry radius
    ∧ getNodeColor "person" = Entry color
    ∧ draw cornerEnv (oneNode "a" "person")
        (run (oneNode "a" "person") (initialState (oneNode "a" "person"))
           [ (cornerEnv, MouseDown 550 300) ])
      = before
        ++ [ BeginPath;
             Arc (x pos) (y pos) (Num radius) 0 (PI * 2);
             FillStyle (if highlighted
                             (run (oneNode "a" "person")
                                (initialState (oneNode "a" "person"))
                                [ (cornerEnv, MouseDown 550 300) ])
                             (buildNode 0 (oneRecord "a" "person"))
                        then color else (color ++ "cc")%string);
             Fill;
             StrokeStyle (if highlighted
                               (run (oneNode "a" "person")
                                  (initialState (oneNode "a" "person"))
                                  [ (cornerEnv, MouseDown 550 300) ])
                               (buildNode 0 (oneRecord "a" "person"))
                          then "#ffffff" else "rgba(0, 0, 0, 0.3)");
             LineWidth (if highlighted
                             (run (oneNode "a" "person")
                                (initialState (oneNode "a" "person"))
                                [ (cornerEnv, MouseDown 550 300) ])
                             (buildNode 0 (oneRecord "a" "person"))
                        then 3 else 1);
             Stroke;
             Font "11px Geist, sans-serif";
             FillStyle "#ffffff";
             TextAlign "center";
             TextBaseline "top";
             FillText (nodeLabel (buildNode 0 (oneRecord "a" "person"))) (x pos)
               (Num (y pos + radius + 5)) ]
        ++ after.
Proof.
  apply (proj1 (nodes_and_anchored_edges_always_drawn (oneNode "a" "person")
                  [ (cornerEnv, MouseDown 550 300) ] cornerEnv
                  (mkCanvas (mkDOMRect 0 0 800 400) true) eq_refl eq_refl)
           (buildNode 0 (oneRecord "a" "person"))).
  - apply list_elem_of_singleton. reflexivity.
  - apply (bool_decide_unpack _). vm_compute. reflexivity.
Defined.

(** ** Labels *)

Lemma string_length_append (s1 s2 : string) :
  String.length (s1 ++ s2) = (String.length s1 + String.length s2)%nat.
Proof. induction s1 as [|c s1 IH]; simpl; [done|]. by rewrite IH. Qed.

Lemma string_length_substring (s : string) (n : nat) :
  (n ≤ String.length s)%nat → String.length (String.substring 0 n s) = n.
Proof.
  revert n. induction s as [|c s IH]; intros [|n] Hn; simpl in *; try done; try lia.
  rewrite IH; [done|lia].
Qed.

(** X8.  The label drawn under a node is the label of the node, or its id
    when the label is empty; it is drawn as it is when it has at most 18
    characters, else as its first 15 characters and three dots, and so
    never takes more than 18 characters. *)
Theorem node_label_at_most_18 node :
  let full := str_or (node_label node) (node_id node) in
  (String.length (nodeLabel node) ≤ 18)%nat
  ∧ ((String.length full ≤ 18)%nat → nodeLabel node = full)
  ∧ ((18 < String.length full)%nat →
       nodeLabel node = (String.substring 0 15 full ++ "...")%string
       ∧ String.length (nodeLabel node) = 18%nat)
  ∧ (node_label node ≠ EmptyString → full = node_label node)
  ∧ (node_label node = EmptyString → full = node_id node).
Proof.
  intros full. unfold nodeLabel. fold full.
  destruct (18 <? String.length full)%nat eqn:Hlen.
  - apply Nat.ltb_lt in Hlen.
    assert (String.length (String.substring 0 15 full ++ "...") = 18%nat) as Hcut.
    { rewrite string_length_append, string_length_substring by lia. done. }
    repeat split; try done; try lia.
    + unfold full, str_or. intros Hl. by destruct (decide (node_label node = EmptyString)).
    + unfold full, str_or. intros ->. done.
  - apply Nat.ltb_ge in Hlen. repeat split; try done; try lia.
    + unfold full, str_or. intros Hl. by destruct (decide (node_label node = EmptyString)).
    + unfold full, str_or. intros ->. done.
Qed.

Lemma node_label_at_most_18_witness :
  let node := mkGraphNode "n1" "a-very-long-repository-name" "repository" 0 0 [] in
  nodeLabel node = (String.substring 0 15 "a-very-long-repository-name" ++ "...")%string
  ∧ String.length (nodeLabel node) = 18%nat.
Proof.
  apply (proj1 (proj2 (proj2 (node_label_at_most_18
           (mkGraphNode "n1" "a-very-long-repository-name" "repository" 0 0 []))))).
  vm_compute. lia.
Defined.

(** ** What an event leaves alone *)

(** X9.  The node positions change only on a pointer-move taken while a
    node is dragged; the zoom only on a wheel event and on the zoom and
    reset buttons; the pan only on a pointer-move and on reset; the
    selection only on a click and on the close button; the hovered node
    only on a pointer-move taken while no gesture is open. *)
Theorem events_change_only_their_own_cells g s env event :
  ((∀ cx cy, event ≠ MouseMove cx cy) ∨ or_null (draggingNode s) = None →
     nodePositions (step g s (env, event)) = nodePositions s)
  ∧ ((∀ dy, event ≠ Wheel dy) → event ≠ ZoomIn → event ≠ ZoomOut →
     event ≠ ResetView →
     zoom (step g s (env, event)) = zoom s)
  ∧ ((∀ cx cy, event ≠ MouseMove cx cy) ∨ isDragging s = false
       ∨ is_Some (or_null (draggingNode s)) →
     event ≠ ResetView →
     pan (step g s (env, event)) = pan s)
  ∧ ((∀ cx cy, event ≠ Click cx cy) → event ≠ CloseDrawer →
     selectedNode (step g s (env, event)) = selectedNode s)
  ∧ ((∀ cx cy, event ≠ MouseMove cx cy) ∨ isDragging s = true
       ∨ is_Some (or_null (draggingNode s)) →
     hoveredNode (step g s (env, event)) = hoveredNode s).
Proof.
  repeat split.
  - intros Hev. destruct event as [cx cy|cx cy| | |cx cy|dy| | | |]; simpl; try done.
    + unfold handleMouseMove. destruct Hev as [Hev|Hev]; [by destruct (Hev cx cy)|].
      rewrite Hev. by repeat case_match.
    + unfold handleMouseDown. by case_match.
  - intros Hw Hin Hout Hreset.
    destruct event as [cx cy|cx cy| | |cx cy|dy| | | |]; simpl; try done.
    + unfold handleMouseMove. by repeat case_match.
    + unfold handleMouseDown. by case_match.
    + by destruct (Hw dy).
  - intros Hev Hreset.
    destruct event as [cx cy|cx cy| | |cx cy|dy| | | |]; simpl; try done.
    + unfold handleMouseMove.
      destruct Hev as [Hev|[Hev|[a Hev]]]; [by destruct (Hev cx cy)| |].
      * rewrite Hev. by repeat case_match.
      * rewrite Hev. by case_match.
    + unfold handleMouseDown. by case_match.
  - intros Hclick Hclose.
    destruct event as [cx cy|cx cy| | |cx cy|dy| | | |]; simpl; try done.
    + unfold handleMouseMove. by repeat case_match.
    + unfold handleMouseDown. by case_match.
    + by destruct (Hclick cx cy).
  - intros Hev. destruct event as [cx cy|cx cy| | |cx cy|dy| | | |]; simpl; try done.
    + unfold handleMouseMove.
      destruct Hev as [Hev|[Hev|[a Hev]]]; [by destruct (Hev cx cy)| |].
      * rewrite Hev. by repeat case_match.
      * rewrite Hev. by case_match.
    + unfold handleMouseDown. by case_match.
Qed.

Lemma events_change_only_their_own_cells_witness :
  let g := oneNode "a" "person" in
  nodePositions (step g (initialState g) (cornerEnv, MouseMove 550 300))
  = nodePositions (initialState g).
Proof.
  apply (proj1 (events_change_only_their_own_cells (oneNode "a" "person")
                  (initialState (oneNode "a" "person")) cornerEnv (MouseMove 550 300))).
  right. reflexivity.
Defined.

(** ** Zoom steps *)

Lemma wheelDelta_up dy : dy <= 0 → wheelDelta dy = 1.1.
Proof. intros H. unfold wheelDelta, Rgtb. destruct (Rgt_dec dy 0); [lra|done]. Qed.

Lemma wheelDelta_down dy : 0 < dy → wheelDelta dy = 0.9.
Proof. intros H. unfold wheelDelta, Rgtb. destruct (Rgt_dec dy 0); [done|lra]. Qed.

(** X10.  With the zoom within its bounds, a wheel step away from the user
    and the zoom-in button never lower the zoom and stop at 2, a wheel step
    towards the user and the zoom-out button never raise it and stop at
    0.5; and the steps do not undo one another: where no bound is met, wheel
    in then out multiplies the zoom by 0.99 and the two buttons by 0.96. *)
Theorem zoom_steps_are_monotone_and_not_inverse g s env :
  0.5 <= zoom s <= 2 →
  (∀ dy, dy <= 0 →
     zoom (step g s (env, Wheel dy)) = Rmin (zoom s * 1.1) 2
     ∧ zoom s <= zoom (step g s (env, Wheel dy)))
  ∧ (∀ dy, 0 < dy →
     zoom (step g s (env, Wheel dy)) = Rmax (zoom s * 0.9) 0.5
     ∧ zoom (step g s (env, Wheel dy)) <= zoom s)
  ∧ zoom s <= zoom (step g s (env, ZoomIn))
  ∧ zoom (step g s (env, ZoomOut)) <= zoom s
  ∧ (∀ up down, up <= 0 → 0 < down → zoom s * 1.1 <= 2 → 0.5 <= zoom s * 0.99 →
     zoom (run g s [ (env, Wheel up); (env, Wheel down) ]) = zoom s * 0.99)
  ∧ (zoom s * 1.2 <= 2 → 0.5 <= zoom s * 0.96 →
     zoom (run g s [ (env, ZoomIn); (env, ZoomOut) ]) = zoom s * 0.96).
Proof.
  intros Hz. repeat split.
  - cbn [step]. unfold handleWheel. simpl. rewrite wheelDelta_up by done.
    unfold Rmin, Rmax. repeat destruct (Rle_dec _ _); lra.
  - cbn [step]. unfold handleWheel. simpl. rewrite wheelDelta_up by done.
    unfold Rmin, Rmax. repeat destruct (Rle_dec _ _); lra.
  - cbn [step]. unfold handleWheel. simpl. rewrite wheelDelta_down by done.
    unfold Rmin, Rmax. repeat destruct (Rle_dec _ _); lra.
  - cbn [step]. unfold handleWheel. simpl. rewrite wheelDelta_down by done.
    unfold Rmin, Rmax. repeat destruct (Rle_dec _ _); lra.
  - simpl. unfold Rmin. destruct (Rle_dec _ _); lra.
  - simpl. unfold Rmax. destruct (Rle_dec _ _); lra.
  - intros up down Hup Hdown Hhi Hlo. unfold run. simpl.
    rewrite wheelDelta_up, wheelDelta_down by done.
    unfold Rmin, Rmax. repeat destruct (Rle_dec _ _); lra.
  - intros Hhi Hlo. unfold run. simpl.
    unfold Rmin, Rmax. repeat destruct (Rle_dec _ _); lra.
Qed.

Lemma zoom_steps_are_monotone_and_not_inverse_witness :
  let g := oneNode "a" "person" in
  zoom (run g (initialState g) [ (cornerEnv, ZoomIn); (cornerEnv, ZoomOut) ])
  = zoom (initialState g) * 0.96.
Proof.
  apply (zoom_steps_are_monotone_and_not_inverse (oneNode "a" "person")
           (initialState (oneNode "a" "person")) cornerEnv); simpl; lra.
Defined.

(** X11.  After the reset button the zoom is 1 and the pan is zero, so that
    a world point is painted at its own coordinates and a pointer at it is
    taken back to it; the node positions are those from before, dragged
    nodes stay where they were dropped. *)
Theorem reset_view_restores_identity g s env r p :
  let s' := step g s (env, ResetView) in
  worldToScreen env r s' p = p
  ∧ toWorld r s' (rect_left r + x p) (rect_top r + y p) = p
  ∧ nodePositions s' = nodePositions s
  ∧ selectedNode s' = selectedNode s.
Proof.
  destruct p as [px py]. repeat split.
  - rewrite worldToScreen_affine. simpl. f_equal; lra.
  - unfold toWorld. simpl. f_equal; field.
Qed.

(** ** Selection, drawer and tooltip *)

Lemma initialState_tracked g : tracked g (initialState g).
Proof. by split. Qed.

Lemma step_tracked g s input : tracked g s → tracked g (step g s input).
Proof.
  intros [Hsel Hhov]. destruct input as [env event].
  destruct event as [cx cy|cx cy| | |cx cy|dy| | | |]; simpl; try done.
  - unfold handleMouseMove. destruct (canvasRef env) as [canvas|] eqn:Hc; [|done].
    destruct (or_null (draggingNode s)); [done|].
    destruct (isDragging s); [done|].
    split; [done|]. simpl. intros n Hn. by eapply getNodeAtPosition_elem.
  - unfold handleMouseDown. by destruct (getNodeAtPosition env g s cx cy).
  - split; [|done]. simpl. unfold clickedId.
    intros a [Hhit Ha]%or_null_Some. split; [done|].
    destruct (getNodeAtPosition env g s cx cy) as [n|] eqn:Hn; [|done].
    injection Hhit as <-. apply list_elem_of_fmap. exists n. split; [done|].
    by eapply getNodeAtPosition_elem.
Qed.

Lemma find_by_id (l : list GraphNode) a :
  a ∈ node_id <$> l →
  ∃ pre n post,
    l = pre ++ n :: post
    ∧ (a ∉ node_id <$> pre)
    ∧ node_id n = a
    ∧ List.find (λ n, bool_decide (node_id n = a)) l = Some n.
Proof.
  induction l as [|m l IH]; intros Ha; [by apply elem_of_nil in Ha|].
  simpl. destruct (decide (node_id m = a)) as [Hm|Hm].
  - exists [], m, l. rewrite bool_decide_eq_true_2 by done.
    split; [done|]. split; [apply not_elem_of_nil|done].
  - rewrite bool_decide_eq_false_2 by done.
    rewrite fmap_cons in Ha. apply elem_of_cons in Ha as [Ha|Ha]; [done|].
    destruct (IH Ha) as (pre & n & post & -> & Hpre & Hid & Hfind).
    exists (m :: pre), n, post. split; [done|]. split; [|done].
    rewrite fmap_cons. apply not_elem_of_cons. by split.
Qed.

(** X12.  In every state reached from the first render the selected id,
    when there is one, is the non-empty id of a node of the model and the
    hovered node is a node of the model. *)
Theorem selection_and_hover_are_nodes g trace :
  let s := run g (initialState g) trace in
  (∀ a, selectedNode s = Some a → a ≠ EmptyString ∧ a ∈ node_id <$> nodes g)
  ∧ (∀ n, hoveredNode s = Some n → n ∈ nodes g).
Proof.
  apply (run_invariant g (tracked g)); [apply step_tracked|].
  apply initialState_tracked.
Qed.

(** X13.  In every state reached from the first render the drawer is open
    exactly when an id is selected; it then shows the first node of the
    list bearing that id, no node before it has the id, and the hover
    tooltip is hidden; with nothing selected the tooltip shows the hovered
    node. *)
Theorem drawer_shows_selection_and_hides_tooltip g trace :
  let s := run g (initialState g) trace in
  (∀ a, selectedNode s = Some a →
        ∃ pre n post,
          nodes g = pre ++ n :: post
          ∧ (a ∉ node_id <$> pre)
          ∧ node_id n = a
          ∧ selectedNodeData g s = Some n
          ∧ tooltipNode g s = None)
  ∧ (selectedNode s = None →
     selectedNodeData g s = None ∧ tooltipNode g s = hoveredNode s).
Proof.
  intros s.
  assert (tracked g s) as [Hsel _].
  { apply (run_invariant g (tracked g)); [apply step_tracked|].
    apply initialState_tracked. }
  split.
  - intros a Ha. destruct (Hsel a Ha) as [Hne Hin].
    destruct (find_by_id (nodes g) a Hin) as (pre & n & post & Hg & Hpre & Hid & Hfind).
    exists pre, n, post. unfold tooltipNode, selectedNodeData.
    assert (or_null (selectedNode s) = Some a) as -> by (by apply or_null_Some).
    rewrite Hfind. repeat split; try done. by destruct (hoveredNode s).
  - intros Hnone. unfold tooltipNode, selectedNodeData. rewrite Hnone. simpl.
    split; [done|]. by destruct (hoveredNode s).
Qed.

(** X14.  A click is not a toggle: what it selects depends on the pointer
    position and not on what was selected before, a second click at the
    same place changes nothing, and a click that hits no node clears the
    selection. *)
Theorem click_is_idempotent g s env clientX clientY :
  step g (step g s (env, Click clientX clientY)) (env, Click clientX clientY)
  = step g s (env, Click clientX clientY)
  ∧ (∀ sel, selectedNode (step g (onNodeSelect sel s) (env, Click clientX clientY))
            = selectedNode (step g s (env, Click clientX clientY)))
  ∧ (getNodeAtPosition env g s clientX clientY = None →
     selectedNode (step g s (env, Click clientX clientY)) = None)
  ∧ (∀ n, getNodeAtPosition env g s clientX clientY = Some n →
          node_id n ≠ EmptyString →
          selectedNode (step g s (env, Click clientX clientY)) = Some (node_id n)).
Proof.
  repeat split.
  - intros Hmiss. simpl. unfold clickedId. by rewrite Hmiss.
  - intros n Hhit Hid. simpl. unfold clickedId. rewrite Hhit. simpl.
    by apply or_null_Some.
Qed.

Lemma click_is_idempotent_witness :
  let g := oneNode "a" "person" in
  selectedNode (step g (initialState g) (cornerEnv, Click 550 300)) = Some "a"%string.
Proof.
  apply (proj2 (proj2 (proj2 (click_is_idempotent (oneNode "a" "person")
           (initialState (oneNode "a" "person")) cornerEnv 550 300)))
           (buildNode 0 (oneRecord "a" "person"))).
  - apply oneNode_hit.
  - discriminate.
Defined.

(** ** Initial layout *)

(** X15.  Every node of a built model starts on the circle of radius 150
    around [(400, 300)], hence with [250 <= x <= 550] and
    [150 <= y <= 450]. *)
Theorem seed_points_on_circle data n :
  n ∈ nodes (generateGraphData data) →
  (node_x n - 400) ^ 2 + (node_y n - 300) ^ 2 = 150 ^ 2
  ∧ 250 <= node_x n <= 550
  ∧ 150 <= node_y n <= 450.
Proof.
  unfold generateGraphData. destruct (graph_data data) as [gd|]; simpl;
    [|by intros ?%elem_of_nil].
  intros (i & nd & -> & _)%elem_of_lookup_imap. simpl.
  pose proof (sin2_cos2 (INR i * 0.5)) as Hone. unfold Rsqr in Hone.
  pose proof (COS_bound (INR i * 0.5)). pose proof (SIN_bound (INR i * 0.5)).
  repeat split; nra.
Qed.

Lemma seed_points_on_circle_witness :
  let n := buildNode 3 (mkRawNode "d" "first" "account" None) in
  (node_x n - 400) ^ 2 + (node_y n - 300) ^ 2 = 150 ^ 2
  ∧ 250 <= node_x n <= 550
  ∧ 150 <= node_y n <= 450.
Proof.
  apply (seed_points_on_circle (fiveNodes "first")).
  apply elem_of_lookup_imap. exists 3%nat, (mkRawNode "d" "first" "account" None).
  split; reflexivity.
Defined.

(** ** Style tables *)

Lemma inherited_member_is_no_entry type :
  type ∈ objectPrototypeMembers →
  nodeSizes !! type = None ∧ nodeColors !! type = None.
Proof.
  intros Htype. unfold objectPrototypeMembers in Htype.
  repeat (apply elem_of_cons in Htype as [->|Htype]; [by vm_compute|]).
  by apply elem_of_nil in Htype.
Qed.

(** X16.  A type that names no member inherited from [Object.prototype]
    has a style: its radius is a number between 16 and 60, 20 when the type
    is no key of the size table, and its colour is a seven-character
    [#rrggbb] text, the grey [#6b7280] when the type is no key of the
    colour table.  For a type that names an inherited member, such as
    [constructor] or [toString], both lookups return that member instead of
    the default, and the hit test never returns a node of such a type. *)
Theorem every_type_has_a_style type :
  (type ∉ objectPrototypeMembers →
     ∃ radius color,
       getNodeSize type = Entry radius
       ∧ 16 <= radius <= 60
       ∧ (nodeSizes !! type = None → radius = 20)
       ∧ getNodeColor type = Entry color
       ∧ String.length color = 7%nat
       ∧ String.substring 0 1 color = "#"%string
       ∧ (nodeColors !! type = None → color = "#6b7280"%string))
  ∧ (type ∈ objectPrototypeMembers →
     getNodeSize type = InheritedMember type
     ∧ getNodeColor type = InheritedMember type
     ∧ (∀ w pos node, node_type node = type → hits w pos node = false)
     ∧ (∀ env g s clientX clientY node,
          getNodeAtPosition env g s clientX clientY = Some node →
          node_type node ≠ type)).
Proof.
  split.
  - intros Htype. destruct (styled_type _ Htype) as (radius & color & Hsize & Hcolor).
    exists radius, color. split; [done|].
    split; [by eapply getNodeSize_bounds|]. split; [|split; [done|]].
    + intros Hnone. unfold getNodeSize, objectGet in Hsize. rewrite Hnone in Hsize.
      destruct (decide (type ∈ objectPrototypeMembers)); [done|]. by injection Hsize.
    + unfold getNodeColor, objectGet in Hcolor.
      destruct (nodeColors !! type) as [c|] eqn:Hc.
      * injection Hcolor as <-. apply elem_of_list_to_map_2 in Hc.
        repeat (apply elem_of_cons in Hc as [[= _ ->]|Hc]; [done|]).
        by apply elem_of_nil in Hc.
      * destruct (decide (type ∈ objectPrototypeMembers)); [done|].
        by injection Hcolor as <-.
  - intros Htype. destruct (inherited_member_is_no_entry _ Htype) as [Hsize Hcolor].
    assert (getNodeSize type = InheritedMember type) as Hmember.
    { unfold getNodeSize, objectGet. rewrite Hsize.
      by destruct (decide (type ∈ objectPrototypeMembers)). }
    assert (∀ w pos node, node_type node = type → hits w pos node = false) as Hmiss.
    { intros w pos node <-. unfold hits. by rewrite Hmember. }
    split; [done|]. split; [|split; [done|]].
    + unfold getNodeColor, objectGet. rewrite Hcolor.
      by destruct (decide (type ∈ objectPrototypeMembers)).
    + intros env g s cx cy node Hhit Hnode.
      unfold getNodeAtPosition in Hhit. destruct (canvasRef env); [|done].
      apply firstHit_Some in Hhit as (pre & post & pos & _ & _ & Hin & _).
      apply hits_within in Hin. by rewrite (Hmiss _ _ _ Hnode) in Hin.
Qed.

Lemma every_type_has_a_style_witness :
  (∃ radius color,
     getNodeSize "galaxy" = Entry radius
     ∧ 16 <= radius <= 60
     ∧ (nodeSizes !! "galaxy" = None → radius = 20)
     ∧ getNodeColor "galaxy" = Entry color
     ∧ String.length color = 7%nat
     ∧ String.substring 0 1 color = "#"%string
     ∧ (nodeColors !! "galaxy" = None → color = "#6b7280"%string))
  ∧ getNodeSize "constructor" = InheritedMember "constructor".
Proof.
  split.
  - apply (proj1 (every_type_has_a_style "galaxy")).
    apply (bool_decide_unpack _). vm_compute. reflexivity.
  - apply (proj2 (every_type_has_a_style "constructor")).
    apply (bool_decide_unpack _). vm_compute. reflexivity.
Defined.

(** ** The store and the built edges *)

(** X17.  In every state reached from the first render the keys of the
    position store are exactly the ids of the nodes of the model: no
    handler adds a key for an id that is no node, and none removes one. *)
Theorem store_keys_are_node_ids g trace k :
  is_Some (nodePositions (run g (initialState g) trace) !! k)
  ↔ k ∈ node_id <$> nodes g.
Proof.
  split.
  - apply (run_storeOfNodes g trace).
  - intros (n & -> & Hn)%list_elem_of_fmap. revert n Hn.
    apply (run_invariant g (allPlaced g)); [apply step_allPlaced|].
    apply initialState_allPlaced.
Qed.

(** X18.  Every edge of a built model comes from an edge record of the
    payload with the same endpoints, and its relationship is the title of
    the record, or ["connected"] when the title is empty; it is never empty,
    so the renderer labels the edge with the relationship itself. *)
Theorem built_edges_are_labelled data e :
  e ∈ edges (generateGraphData data) →
  relationship e ≠ EmptyString
  ∧ str_or (relationship e) "connected" = relationship e
  ∧ ∃ gd edgeData,
      graph_data data = Some gd ∧ edgeData ∈ raw_edges gd
      ∧ source e = raw_from edgeData ∧ target e = raw_to edgeData
      ∧ (raw_title edgeData ≠ EmptyString → relationship e = raw_title edgeData)
      ∧ (raw_title edgeData = EmptyString → relationship e = "connected"%string).
Proof.
  unfold generateGraphData. destruct (graph_data data) as [gd|]; simpl;
    [|by intros ?%elem_of_nil].
  intros (edgeData & -> & Hin)%list_elem_of_fmap. simpl.
  assert (str_or (raw_title edgeData) "connected" ≠ EmptyString) as Hne.
  { unfold str_or. by destruct (decide (raw_title edgeData = EmptyString)). }
  split; [done|]. split.
  - unfold str_or at 1.
    by destruct (decide (str_or (raw_title edgeData) "connected" = EmptyString)).
  - exists gd, edgeData. repeat split; try done; unfold str_or.
    + intros Ht. by destruct (decide (raw_title edgeData = EmptyString)).
    + intros ->. done.
Qed.

Lemma built_edges_are_labelled_witness :
  let data := mkScanResult (Some (mkRawGraph
                [ mkRawNode "a" "Alice" "person" None ]
                [ mkRawEdge "a" "ghost" EmptyString ])) in
  relationship (mkGraphEdge "a" "ghost" "connected") ≠ EmptyString
  ∧ str_or (relationship (mkGraphEdge "a" "ghost" "connected")) "connected"
    = relationship (mkGraphEdge "a" "ghost" "connected")
  ∧ ∃ gd edgeData,
      graph_data data = Some gd ∧ edgeData ∈ raw_edges gd
      ∧ source (mkGraphEdge "a" "ghost" "connected") = raw_from edgeData
      ∧ target (mkGraphEdge "a" "ghost" "connected") = raw_to edgeData
      ∧ (raw_title edgeData ≠ EmptyString →
         relationship (mkGraphEdge "a" "ghost" "connected") = raw_title edgeData)
      ∧ (raw_title edgeData = EmptyString →
         relationship (mkGraphEdge "a" "ghost" "connected") = "connected"%string).
Proof.
  apply (built_edges_are_labelled
           (mkScanResult (Some (mkRawGraph
                [ mkRawNode "a" "Alice" "person" None ]
                [ mkRawEdge "a" "ghost" EmptyString ])))
           (mkGraphEdge "a" "ghost" "connected")).
  apply list_elem_of_singleton. reflexivity.
Defined.
